(** * The command buffer of CNC Server (src/cncserver.queue.js)

    A shallow embedding of the run/queue module: the buffer state kept on
    the [cncserver] object, the two pen states, and the functions
    [clear], [pause], [resume], [toggle], [addItem], [removeItem], [run],
    [render], [trigger] and [cmdstr], followed by the properties of the
    specification that concern them.

    JavaScript objects that the module copies with [util._extend] live in
    an explicit heap, so that two names for one object and two objects with
    the same content are told apart; a field of such an object holds a
    primitive value or a reference to another object. Numbers are kept in
    the decimal form in which JavaScript prints them, with [parseInt] and
    [Number.prototype.toString] defined on that form. Calls that leave the
    module ([cncserver.ipc], [cncserver.io], [console], a queued callback)
    are recorded, in order, together with the store they could observe. *)

From Stdlib Require Import ZArith String Ascii List Lia.
From stdpp Require Import base option gmap strings list fin_maps pretty sorting.

#[local] Set Warnings "-register-all".

Local Open Scope Z_scope.

(** ** Numbers *)

Inductive digit : Type := d0 | d1 | d2 | d3 | d4 | d5 | d6 | d7 | d8 | d9.

(** A number as JavaScript writes it in decimal: sign, whole part and the
    digits after the point; [NaN]; an infinity. *)
Inductive number : Type :=
  | Finite (negative : bool) (whole : N) (fraction : list digit)
  | NaN
  | Infinity (negative : bool).

Definition of_Z (z : Z) : number := Finite (z <? 0) (Z.abs_N z) [].
Coercion of_Z : Z >-> number.

Definition of_N (n : N) : number := Finite false n [].

Definition digit_value (d : digit) : N :=
  match d with
  | d0 => 0 | d1 => 1 | d2 => 2 | d3 => 3 | d4 => 4
  | d5 => 5 | d6 => 6 | d7 => 7 | d8 => 8 | d9 => 9
  end%N.

Definition digit_of (n : N) : digit :=
  match n with
  | 0 => d0 | 1 => d1 | 2 => d2 | 3 => d3 | 4 => d4
  | 5 => d5 | 6 => d6 | 7 => d7 | 8 => d8 | _ => d9
  end%N.

Definition digit_char (d : digit) : ascii :=
  match d with
  | d0 => "0" | d1 => "1" | d2 => "2" | d3 => "3" | d4 => "4"
  | d5 => "5" | d6 => "6" | d7 => "7" | d8 => "8" | d9 => "9"
  end%char.

Fixpoint digits_fuel (fuel : nat) (n : N) (acc : list digit) : list digit :=
  match fuel with
  | O => acc
  | S fuel' =>
      let acc' := digit_of (n mod 10) :: acc in
      if (n <? 10)%N then acc' else digits_fuel fuel' (n / 10)%N acc'
  end.

(** The decimal digits of [n], the most significant first. *)
Definition digits (n : N) : list digit :=
  digits_fuel (S (N.to_nat (N.log2 n))) n [].

Definition digits_string (ds : list digit) : string :=
  foldr (λ d s, String (digit_char d) s) EmptyString ds.

Fixpoint drop_zeros (ds : list digit) : list digit :=
  match ds with
  | d0 :: rest => drop_zeros rest
  | _ => ds
  end.

Definition strip_zeros (ds : list digit) : list digit :=
  reverse (drop_zeros (reverse ds)).

(** *** The nearest double *)

(** [n] rounded to 53 significant bits, ties to even. *)
Definition round53 (n : N) : N :=
  let bits := N.size n in
  if (bits <=? 53)%N then n
  else
    let shift := (bits - 53)%N in
    let q := N.shiftr n shift in
    let r := (n - N.shiftl q shift)%N in
    let half := N.shiftl 1 (shift - 1) in
    let q := if (half <? r)%N || ((r =? half)%N && N.odd q)
             then (q + 1)%N else q in
    N.shiftl q shift.

(** The shortest decimal that rounds to the double [v]: the multiple of
    the largest power of ten that does, the one nearest to [v]. *)
Fixpoint shortest (j : nat) (v : N) : N :=
  let p := (10 ^ N.of_nat j)%N in
  let lo := (v - v mod p)%N in
  let hi := (lo + p)%N in
  let ok_lo := (0 <? lo)%N && (round53 lo =? v)%N in
  let ok_hi := (round53 hi =? v)%N in
  if ok_lo && ok_hi then
    if (v - lo <? hi - v)%N then lo
    else if (hi - v <? v - lo)%N then hi
    else if N.even (lo / p) then lo else hi
  else if ok_lo then lo
  else if ok_hi then hi
  else match j with
       | O => v
       | S j' => shortest j' v
       end.

(** The Number value of the integer [n], written as JavaScript prints it;
    [None] is [Infinity]. *)
Definition to_double (n : N) : option N :=
  if (n <? 2 ^ 53)%N then Some n
  else if (n <? 2 ^ 1024 - 2 ^ 970)%N
  then Some (shortest (N.to_nat (N.size n)) (round53 n))
  else None.

(** *** [Number.prototype.toString] *)

(** [d.ddde+x] *)
Definition scientific (significand : list digit) (e : Z) : string :=
  match significand with
  | [] => "0"
  | d :: rest =>
      String (digit_char d)
        (match rest with
         | [] => EmptyString
         | _ => "." +:+ digits_string rest
         end)
      +:+ "e" +:+ (if e <? 0 then "-" else "+")
      +:+ digits_string (digits (Z.abs_N e))
  end.

Definition sign_text (negative : bool) : string :=
  if negative then "-" else EmptyString.

Definition number_to_string (x : number) : string :=
  match x with
  | NaN => "NaN"
  | Infinity negative => sign_text negative +:+ "Infinity"
  | Finite negative whole fraction =>
      match strip_zeros fraction with
      | [] =>
          match to_double whole with
          | None => sign_text negative +:+ "Infinity"
          | Some 0%N => "0"
          | Some n =>
              sign_text negative +:+
              (if (n <? 10 ^ 21)%N then digits_string (digits n)
               else scientific (strip_zeros (digits n))
                      (Z.of_nat (length (digits n)) - 1))
          end
      | f =>
          let zeros := (length f - length (drop_zeros f))%nat in
          sign_text negative +:+
          (if (whole =? 0)%N && (6 <=? zeros)%nat
           then scientific (drop_zeros f) (- Z.of_nat (S zeros))
           else if (whole <? 10 ^ 21)%N
           then digits_string (digits whole) +:+ "." +:+ digits_string f
           else scientific (strip_zeros (digits whole ++ f))
                  (Z.of_nat (length (digits whole)) - 1))
      end
  end.

(** *** [parseInt] on a string *)

Definition bytes_string (bs : list nat) : string :=
  foldr (λ b s, String (ascii_of_nat b) s) EmptyString bs.

(** White space and line terminators, in UTF-8. *)
Definition white_space : list string :=
  bytes_string <$>
    [[9]; [10]; [11]; [12]; [13]; [32]; [194; 160]; [225; 154; 128];
     [226; 128; 128]; [226; 128; 129]; [226; 128; 130]; [226; 128; 131];
     [226; 128; 132]; [226; 128; 133]; [226; 128; 134]; [226; 128; 135];
     [226; 128; 136]; [226; 128; 137]; [226; 128; 138]; [226; 128; 168];
     [226; 128; 169]; [226; 128; 175]; [226; 129; 159]; [227; 128; 128];
     [239; 187; 191]]%nat.

Fixpoint trim_start (fuel : nat) (s : string) : string :=
  match fuel with
  | O => s
  | S fuel' =>
      match List.find (λ p, String.prefix p s) white_space with
      | Some p =>
          trim_start fuel'
            (String.substring (String.length p)
               (String.length s - String.length p) s)
      | None => s
      end
  end.

(** The value of a character as a digit, up to base 36. *)
Definition char_value (c : ascii) : option N :=
  let n := N_of_ascii c in
  if (48 <=? n)%N && (n <=? 57)%N then Some (n - 48)%N
  else if (97 <=? n)%N && (n <=? 122)%N then Some (n - 87)%N
  else if (65 <=? n)%N && (n <=? 90)%N then Some (n - 55)%N
  else None.

(** The values of the digits a string starts with. *)
Fixpoint leading (radix : N) (s : string) : list N :=
  match s with
  | EmptyString => []
  | String c rest =>
      match char_value c with
      | Some v => if (v <? radix)%N then v :: leading radix rest else []
      | None => []
      end
  end.

(** An optional sign in front. *)
Definition split_sign (s : string) : bool * string :=
  match s with
  | String "-" rest => (true, rest)
  | String "+" rest => (false, rest)
  | _ => (false, s)
  end.

(** The radix: 16 after [0x] or [0X], 10 otherwise. *)
Definition split_radix (s : string) : N * string :=
  match s with
  | String "0" (String "x" rest) | String "0" (String "X" rest) =>
      (16%N, rest)
  | _ => (10%N, s)
  end.

(** [parseInt(s)] for a string [s]: white space is skipped, then a sign
    and a radix prefix are read, then the digits as far as they go; the
    result is the nearest double, and [NaN] where there is no digit. *)
Definition parse_int (s : string) : number :=
  let s := trim_start (String.length s) s in
  let '(negative, s) := split_sign s in
  let '(radix, s) := split_radix s in
  match leading radix s with
  | [] => NaN
  | vs =>
      match to_double (foldl (λ a v, a * radix + v)%N 0%N vs) with
      | Some n => Finite negative n []
      | None => Infinity negative
      end
  end.

(** The number that digit values spell in base ten. *)
Definition value (vs : list N) : N := foldl (λ a v, a * 10 + v)%N 0%N vs.

(** A text at which the digits end: nothing, a point, or an exponent. *)
Definition stops (rest : string) : Prop :=
  rest = EmptyString ∨ (∃ r, rest = String "." r) ∨ (∃ r, rest = String "e" r).

(** ** Values *)

(** Primitive values. *)
Inductive prim : Type :=
  | PUndef
  | PNull
  | PBool (b : bool)
  | PNum (x : number)
  | PStr (s : string).

(** Values handed to [cncserver.run] as [data] and kept as the [command]
    of a buffer item. A function is known by its name only; the module
    never writes to a payload, so an object payload is a tree of fields
    in insertion order. *)
Inductive jsval : Type :=
  | VPrim (p : prim)
  | VFun (f : string)
  | VObj (fields : list (string * jsval)).

Coercion VPrim : prim >-> jsval.

Definition undefined : jsval := VPrim PUndef.

(** [typeof v] *)
Definition typeof (v : jsval) : string :=
  match v with
  | VPrim PUndef => "undefined"
  | VPrim PNull => "object"
  | VPrim (PBool _) => "boolean"
  | VPrim (PNum _) => "number"
  | VPrim (PStr _) => "string"
  | VFun _ => "function"
  | VObj _ => "object"
  end.

(** [v === 'lit'] for a string literal, as the [switch] statements use it. *)
Definition is_str (v : jsval) (lit : string) : bool :=
  match v with
  | VPrim (PStr s) => String.eqb s lit
  | _ => false
  end.

(** First field named [k] of an object literal. *)
Fixpoint field (k : string) (fs : list (string * jsval)) : option jsval :=
  match fs with
  | [] => None
  | (k', v) :: fs' => if String.eqb k' k then Some v else field k fs'
  end.

(** [v.k]: [None] stands for the TypeError raised on [undefined] and
    [null]; a missing property reads as [undefined]. *)
Definition get_prop (v : jsval) (k : string) : option jsval :=
  match v with
  | VPrim PUndef | VPrim PNull => None
  | VObj fs => Some (default undefined (field k fs))
  | _ => Some undefined
  end.

(** [String(v)], the conversion [String.prototype.replace] applies to a
    replacement value that is not a function; a function it calls
    ([replace_value] below). For a function the name stands for its source
    text. *)
Definition to_js_string (v : jsval) : string :=
  match v with
  | VPrim PUndef => "undefined"
  | VPrim PNull => "null"
  | VPrim (PBool true) => "true"
  | VPrim (PBool false) => "false"
  | VPrim (PNum x) => number_to_string x
  | VPrim (PStr s) => s
  | VFun f => f
  | VObj _ => "[object Object]"
  end.

(** ** Strings: [String.prototype.replace] with a string pattern *)

(** The replacement text after the [$] patterns are expanded: [$$] is a
    dollar sign, [$&] the matched text, [$`] the text before the match and
    [$'] the text after it. *)
Fixpoint get_substitution (matched before after rep : string) : string :=
  match rep with
  | EmptyString => EmptyString
  | String c rest =>
      if Ascii.eqb c "$"%char then
        match rest with
        | String d rest' =>
            if Ascii.eqb d "$"%char then
              String "$"%char (get_substitution matched before after rest')
            else if Ascii.eqb d "&"%char then
              matched +:+ get_substitution matched before after rest'
            else if Ascii.eqb d "`"%char then
              before +:+ get_substitution matched before after rest'
            else if Ascii.eqb d "'"%char then
              after +:+ get_substitution matched before after rest'
            else String c (get_substitution matched before after rest)
        | EmptyString => String c EmptyString
        end
      else String c (get_substitution matched before after rest)
  end.

(** [s.replace(pat, rep)]: only the first occurrence is replaced. *)
Definition js_replace (s pat rep : string) : string :=
  match String.index 0 pat s with
  | None => s
  | Some n =>
      let before := String.substring 0 n s in
      let after :=
        String.substring (n + String.length pat)
          (String.length s - (n + String.length pat)) s in
      before +:+ get_substitution pat before after rep +:+ after
  end.

(** ** Buffer items and the store *)

Abbreviation loc := positive.

(** What a field of a pen state object holds: a primitive value, or
    another object. An object is held by reference: two fields, of one
    object or of two, can hold the same object. *)
Inductive hval : Type :=
  | HPrim (p : prim)
  | HRef (l : loc).

Coercion HPrim : prim >-> hval.

(** A pen state object: position, height, state and the like. *)
Abbreviation penobj := (gmap string hval).

(** A buffer item [{command, duration, pen}]; [pen] is the address of the
    object [extend({}, cncserver.pen)] made for it. *)
Record item : Type := Item {
  command : jsval;
  duration : number;
  pen : loc;
}.

(** The state the module reads and writes: the heap of pen objects,
    [cncserver.pen], [cncserver.actualPen] and the fields of
    [cncserver.buffer]. [data] has index 0 first. *)
Record store : Type := Store {
  heap : gmap loc penobj;
  cncserver_pen : loc;
  cncserver_actualPen : loc;
  dataSet : gmap string item;
  data : list string;
  running : bool;
  paused : bool;
  newlyPaused : bool;
  pauseCallback : option string;
  pausePen : option loc;
}.

Definition set_heap (f : gmap loc penobj → gmap loc penobj) (s : store) : store :=
  Store (f (heap s)) (cncserver_pen s) (cncserver_actualPen s) (dataSet s)
    (data s) (running s) (paused s) (newlyPaused s) (pauseCallback s)
    (pausePen s).

Definition set_pen (l : loc) (s : store) : store :=
  Store (heap s) l (cncserver_actualPen s) (dataSet s)
    (data s) (running s) (paused s) (newlyPaused s) (pauseCallback s)
    (pausePen s).

Definition set_actualPen (l : loc) (s : store) : store :=
  Store (heap s) (cncserver_pen s) l (dataSet s)
    (data s) (running s) (paused s) (newlyPaused s) (pauseCallback s)
    (pausePen s).

Definition set_dataSet (f : gmap string item → gmap string item) (s : store) : store :=
  Store (heap s) (cncserver_pen s) (cncserver_actualPen s) (f (dataSet s))
    (data s) (running s) (paused s) (newlyPaused s) (pauseCallback s)
    (pausePen s).

Definition set_data (f : list string → list string) (s : store) : store :=
  Store (heap s) (cncserver_pen s) (cncserver_actualPen s) (dataSet s)
    (f (data s)) (running s) (paused s) (newlyPaused s) (pauseCallback s)
    (pausePen s).

Definition set_paused (b : bool) (s : store) : store :=
  Store (heap s) (cncserver_pen s) (cncserver_actualPen s) (dataSet s)
    (data s) (running s) b (newlyPaused s) (pauseCallback s)
    (pausePen s).

(** The content of the object at [l]; an address that holds no object
    reads as the empty object. *)
Definition deref (h : gmap loc penobj) (l : loc) : penobj :=
  default ∅ (h !! l).

(** What a field holds, read as a value: a primitive as it is, an object
    with the fields it has now, objects inside it likewise. A reference
    that leads to no object reads as [null]. No chain of distinct objects
    is longer than the heap has objects, so with [fuel] at the size of the
    heap only a cycle is cut short. *)
Fixpoint view (fuel : nat) (h : gmap loc penobj) (x : hval) : jsval :=
  match x with
  | HPrim p => VPrim p
  | HRef l =>
      match h !! l, fuel with
      | None, _ => VPrim PNull
      | Some _, O => VObj []
      | Some o, S fuel' =>
          VObj ((λ kv, (kv.1, view fuel' h kv.2)) <$> map_to_list o)
      end
  end.

(** The object at [l] with all it holds. *)
Definition content (h : gmap loc penobj) (l : loc) : jsval :=
  view (size h) h (HRef l).

(** The object that [l.k1. ... .kn] refers to, where every step leads to
    an object. *)
Fixpoint resolve (h : gmap loc penobj) (l : loc) (path : list string)
  : option loc :=
  match path with
  | [] => Some l
  | k :: path' =>
      match deref h l !! k with
      | Some (HRef l') => resolve h l' path'
      | _ => None
      end
  end.

(** ** Calls that leave the module *)

(** What [cncserver.buffer.render] returns: the initial empty string, or
    an array of commands. *)
Inductive rendered : Type :=
  | RStr (s : string)
  | RArr (cmds : list jsval).

(** The message object of ['buffer.add']. *)
Record add_message : Type := AddMessage {
  msg_hash : string;
  msg_commands : rendered;
  msg_duration : number;
}.

Inductive call : Type :=
  | ipc_sendMessage (name : string) (payload : option add_message)
  | io_sendBufferVars
  | io_sendBufferAdd (it : item) (hash : string)
  | io_sendPenUpdate
  | io_sendBufferRemove
  | io_sendBufferComplete
  | io_sendMessageUpdate (message : jsval)
  | io_sendCallbackUpdate (name : jsval)
  | call_command (f : string) (arg : Z).

(** An outbound call and the store as it was when the call was made. *)
Record notification : Type := Notification {
  sent : call;
  seen : store;
}.

Inductive console_line : Type :=
  | console_log (args : list jsval)
  | console_error (args : list jsval).

Record world : Type := World {
  st : store;
  out : list notification;
  console : list console_line;
}.

(** ** Commands: a state monad with exceptions *)

Inductive outcome (A : Type) : Type :=
  | Ret (a : A) (w : world)
  | Throw (e : string) (w : world).
Arguments Ret {A} a w.
Arguments Throw {A} e w.

Definition final {A} (o : outcome A) : world :=
  match o with Ret _ w => w | Throw _ w => w end.

Definition returned {A} (o : outcome A) : option A :=
  match o with Ret a _ => Some a | Throw _ _ => None end.

Definition thrown {A} (o : outcome A) : option string :=
  match o with Ret _ _ => None | Throw e _ => Some e end.

Definition M (A : Type) : Type := world → outcome A.

Definition ret {A} (a : A) : M A := λ w, Ret a w.

Definition bind {A B} (m : M A) (k : A → M B) : M B :=
  λ w, match m w with
       | Ret a w' => k a w'
       | Throw e w' => Throw e w'
       end.

Definition throw {A} (e : string) : M A := λ w, Throw e w.

#[global] Instance M_ret : MRet M := @ret.
#[global] Instance M_bind : MBind M := λ A B k m, bind m k.

Definition gets {A} (f : store → A) : M A := λ w, Ret (f (st w)) w.

Definition modify (f : store → store) : M unit :=
  λ w, Ret tt (World (f (st w)) (out w) (console w)).

Definition emit (c : call) : M unit :=
  λ w, Ret tt (World (st w) (out w ++ [Notification c (st w)])%list (console w)).

Definition log (l : console_line) : M unit :=
  λ w, Ret tt (World (st w) (out w) (console w ++ [l])%list).

(** A property read that raises a TypeError on [undefined] and [null]. *)
Definition prop (v : jsval) (k : string) : M jsval :=
  match get_prop v k with
  | Some x => ret x
  | None => throw "TypeError"
  end.

(** [{}]: a new empty object. *)
Definition new_object : M loc :=
  h ← gets heap;
  let l := fresh (dom h) in
  modify (set_heap (insert l ∅));;
  ret l.

(** [util._extend(origin, add)]: copies the own properties of [add] onto
    [origin] and returns [origin]; does nothing when [add] is not an
    object. *)
Definition extend_store (origin add : loc) (s : store) : store :=
  match heap s !! add with
  | None => s
  | Some o => set_heap (insert origin (o ∪ deref (heap s) origin)) s
  end.

Definition extend (origin add : loc) : M loc :=
  modify (extend_store origin add);;
  ret origin.

(** ** What the module takes from the rest of [cncserver] *)

(** The device profile, the configuration and the helpers of
    [cncserver.utils], none of which the module defines.

    [getHash] stands for [cncserver.utils.getHash(item)]. The identifier
    is derived from the content of the item, so [getHash] is given the
    command, the duration and the content of the pen object, never an
    address; it returns the digest of these, and the identifier is the
    digest written in hexadecimal ([item_hash] below).
    [getPosChangeData] and [getHeightChangeData] return the objects whose
    keys [cmdstr] substitutes. [call_replace f matched offset text] is the
    text of what the function [f] returns when [String.prototype.replace]
    calls it with the matched text, its offset and the whole string. *)
Record environment : Type := Environment {
  bot_commands : gmap string string;
  flipZToggleBit : bool;
  getHash : jsval → number → jsval → string;
  getPosChangeData : jsval → jsval → list (string * jsval);
  getHeightChangeData : jsval → jsval → list (string * jsval);
  call_replace : string → string → nat → string → string;
}.

(** The [duration] argument of [cncserver.run], documented as an int:
    left out, [null], a boolean, a number or a string. *)
Inductive duration_arg : Type :=
  | Dundefined
  | Dnull
  | Dbool (b : bool)
  | Dnum (x : number)
  | Dstr (s : string).

(** Is the number zero? *)
Definition is_zero (whole : N) (fraction : list digit) : bool :=
  (whole =? 0)%N &&
  forallb (λ d, match d with d0 => true | _ => false end) fraction.

(** [!duration] *)
Definition js_not (d : duration_arg) : bool :=
  match d with
  | Dundefined | Dnull => true
  | Dbool b => negb b
  | Dnum NaN => true
  | Dnum (Infinity _) => false
  | Dnum (Finite _ whole fraction) => is_zero whole fraction
  | Dstr s => String.eqb s EmptyString
  end.

(** [String(duration)], the conversion [parseInt] applies to its
    argument. *)
Definition duration_text (d : duration_arg) : string :=
  match d with
  | Dundefined => "undefined"
  | Dnull => "null"
  | Dbool true => "true"
  | Dbool false => "false"
  | Dnum x => number_to_string x
  | Dstr s => s
  end.

(** [parseInt(duration)] *)
Definition parseInt (d : duration_arg) : number :=
  parse_int (duration_text d).

(** [Math.abs(x)] *)
Definition Math_abs (x : number) : number :=
  match x with
  | Finite _ whole fraction => Finite false whole fraction
  | NaN => NaN
  | Infinity _ => Infinity false
  end.

(** [x <= 0] *)
Definition le_zero (x : number) : bool :=
  match x with
  | Finite negative whole fraction => negative || is_zero whole fraction
  | NaN => false
  | Infinity negative => negative
  end.

(** The first two statements of [cncserver.run]. *)
Definition clamp_duration (duration : duration_arg) : number :=
  let duration := if js_not duration then of_Z 1
                  else Math_abs (parseInt duration) in
  if le_zero duration then of_Z 1 else duration.

(** The command kinds the [switch] of [cncserver.run] has a case for. *)
Definition supported : list string :=
  ["move"; "height"; "message"; "callbackname"; "wait"; "custom"; "callback"].

(** ** Enumeration of an object: [for (var v in values)] *)

(** The key as an array index: the decimal form of an integer below
    2^32 - 1. *)
Definition array_index (k : string) : option N :=
  match leading 10 k with
  | [] => None
  | vs =>
      let n := foldl (λ a v, a * 10 + v)%N 0%N vs in
      if String.eqb (digits_string (digits n)) k && (n <? 2 ^ 32 - 1)%N
      then Some n else None
  end.

(** The fields an object has: of two fields of one name the first counts,
    as for [field]. *)
Fixpoint own_fields (seen : list string) (fs : list (string * jsval))
  : list (string * jsval) :=
  match fs with
  | [] => []
  | kv :: rest =>
      if bool_decide (kv.1 ∈ seen) then own_fields seen rest
      else kv :: own_fields (kv.1 :: seen) rest
  end.

Definition index_le (a b : N * (string * jsval)) : Prop := (a.1 ≤ b.1)%N.

#[global] Instance index_le_dec : RelDecision index_le :=
  λ a b, decide ((a.1 ≤ b.1)%N).

(** The order in which [for ... in] visits them: array indices in
    ascending order, then the other keys in insertion order. *)
Definition for_in (fs : list (string * jsval)) : list (string * jsval) :=
  let own := own_fields [] fs in
  let indexed := omap (λ kv, n ← array_index kv.1; Some (n, kv)) own in
  (snd <$> merge_sort index_le indexed)
  ++ filter (λ kv, array_index kv.1 = None) own.

(** ** Identifiers and the keys of [dataSet] *)

Definition hex_char (n : N) : ascii :=
  match n with
  | 0 => "0" | 1 => "1" | 2 => "2" | 3 => "3" | 4 => "4" | 5 => "5"
  | 6 => "6" | 7 => "7" | 8 => "8" | 9 => "9" | 10 => "a" | 11 => "b"
  | 12 => "c" | 13 => "d" | 14 => "e" | _ => "f"
  end%N%char.

(** A digest written in hexadecimal, two characters to the byte. *)
Fixpoint hex (digest : string) : string :=
  match digest with
  | EmptyString => EmptyString
  | String c rest =>
      String (hex_char (N_of_ascii c / 16))
        (String (hex_char (N_of_ascii c mod 16)) (hex rest))
  end.

(** [cncserver.buffer.dataSet] is a plain object: under these keys a read
    finds a property of [Object.prototype] when the object has no entry of
    its own. *)
Definition inherited : list string :=
  ["constructor"; "__defineGetter__"; "__defineSetter__"; "hasOwnProperty";
   "__lookupGetter__"; "__lookupSetter__"; "isPrototypeOf";
   "propertyIsEnumerable"; "toString"; "valueOf"; "__proto__";
   "toLocaleString"].

Section Queue.

Variable env : environment.

(** [!cncserver.bot.commands[name]] *)
Definition no_command (name : string) : bool :=
  match bot_commands env !! name with
  | None => true
  | Some tpl => String.eqb tpl EmptyString
  end.

(** [out.replace(pat, v)]: a function is called for the replacement
    when the pattern occurs; any other value is converted to a string. *)
Definition replace_value (out pat : string) (v : jsval) : string :=
  match v with
  | VFun f =>
      match String.index 0 pat out with
      | None => out
      | Some n =>
          String.substring 0 n out
          +:+ call_replace env f pat n out
          +:+ String.substring (n + String.length pat)
                (String.length out - (n + String.length pat)) out
      end
  | _ => js_replace out pat (to_js_string v)
  end.

(** [cncserver.buffer.cmdstr] *)
Definition cmdstr (name : string) (values : list (string * jsval)) : string :=
  if String.eqb name EmptyString || no_command name then EmptyString
  else
    foldl (λ out kv, replace_value out ("%" +:+ kv.1) kv.2)
      (default EmptyString (bot_commands env !! name)) (for_in values).

(** [cncserver.buffer.render] *)
Definition render (it : item) : M rendered :=
  if String.eqb (typeof (command it)) "object" then
    type ← prop (command it) "type";
    if is_str type "absmove" then
      source ← prop (command it) "source";
      let change := getPosChangeData env source (command it) in
      ret (RArr [VPrim (PStr (cmdstr "movexy" change))])
    else if is_str type "absheight" then
      source ← prop (command it) "source";
      z ← prop (command it) "z";
      let hChange := getHeightChangeData env source z in
      let commandOut := [VPrim (PStr (cmdstr "movez" [("z", z)]))] in
      let commandOut :=
        if no_command "togglez" then commandOut
        else (commandOut ++
               [VPrim (PStr (cmdstr "togglez"
                  [("t", VPrim (PNum (if flipZToggleBit env then 1 else 0)))]))])%list in
      d ← prop (VObj hChange) "d";
      ret (RArr (commandOut ++ [VPrim (PStr (cmdstr "wait" [("d", d)]))])%list)
    else ret (RStr EmptyString)
  else ret (RArr [command it]).

(** [cncserver.buffer.trigger] *)
Definition trigger (it : item) : M bool :=
  match command it with
  | VFun f => emit (call_command f 1);; ret true
  | _ =>
      if String.eqb (typeof (command it)) "object" then
        type ← prop (command it) "type";
        if is_str type "message" then
          message ← prop (command it) "message";
          emit (io_sendMessageUpdate message);;
          ret true
        else if is_str type "callbackname" then
          name ← prop (command it) "name";
          emit (io_sendCallbackUpdate name);;
          ret true
        else ret false
      else ret false
  end.

(** The first [cncserver.buffer.clear] of the file. The assignment is
    made again further down, so this function is never the one called. *)
Definition clear_overwritten : M unit :=
  modify (set_data (λ _, []));;
  l ← new_object;
  actual ← gets cncserver_actualPen;
  l ← extend l actual;
  modify (set_pen l);;
  emit io_sendBufferVars.

(** [cncserver.buffer.pause] *)
Definition pause : M unit :=
  modify (set_paused true);;
  emit (ipc_sendMessage "buffer.pause" None);;
  emit io_sendBufferVars.

(** [cncserver.buffer.resume] *)
Definition resume : M unit :=
  modify (set_paused false);;
  emit (ipc_sendMessage "buffer.resume" None);;
  emit io_sendBufferVars.

(** [cncserver.buffer.toggle]; [setPause] is the truth value of the
    argument. *)
Definition toggle (setPause : bool) : M unit :=
  p ← gets paused;
  if setPause && negb p then pause
  else if negb setPause && p then resume
  else ret tt.

(** [cncserver.utils.getHash(item)] in store [s] *)
Definition item_hash (s : store) (it : item) : string :=
  hex (getHash env (command it) (duration it) (content (heap s) (pen it))).

(** [cncserver.buffer.addItem] *)
Definition addItem (it : item) : M unit :=
  hash ← gets (λ s, item_hash s it);
  modify (set_data (cons hash));;
  modify (set_dataSet (insert hash it));;
  commands ← render it;
  emit (ipc_sendMessage "buffer.add"
          (Some (AddMessage hash commands (duration it))));;
  emit (io_sendBufferAdd it hash).

(** [data.pop()] *)
Definition pop : M (option string) :=
  d ← gets data;
  modify (set_data (λ d, removelast d));;
  ret (last d).

Definition hash_val (hash : option string) : jsval :=
  match hash with
  | Some h => VPrim (PStr h)
  | None => undefined
  end.

(** [if (hash)]: a hash that is [undefined] or the empty string is
    falsy. *)
Definition truthy (hash : option string) : option string :=
  match hash with
  | Some h => if String.eqb h EmptyString then None else Some h
  | None => None
  end.

(** [cncserver.buffer.removeItem]. The JavaScript function returns
    nothing; here it returns the buffer item its local variable [item]
    held, if it held one, so that a statement can name the item a call
    has handled. *)
Definition removeItem : M (option item) :=
  hash ← pop;
  log (console_log [VPrim (PStr "Removing Item hash:"); hash_val hash]);;
  match truthy hash with
  | Some h =>
      ds ← gets dataSet;
      match ds !! h with
      | None =>
          if bool_decide (h ∈ inherited) then
            (* [item] is a property of [Object.prototype]: it has no
               [pen] and no [command], and [delete] finds no entry. *)
            l ← new_object;
            modify (set_actualPen l);;
            emit io_sendPenUpdate;;
            emit io_sendBufferRemove;;
            ret None
          else throw "TypeError"
      | Some it =>
          l ← new_object;
          l ← extend l (pen it);
          modify (set_actualPen l);;
          emit io_sendPenUpdate;;
          trigger it;;
          modify (set_dataSet (delete h));;
          emit io_sendBufferRemove;;
          ret (Some it)
      end
  | None =>
      log (console_error
             [VPrim (PStr "End IPC/Buffer Item & Hash Mismatch. This should never happen!")]);;
      ret None
  end.

(** [cncserver.buffer.clear], the one in force. *)
Definition clear : M unit :=
  modify (set_data (λ _, []));;
  modify (set_dataSet (λ _, ∅));;
  l ← new_object;
  actual ← gets cncserver_actualPen;
  l ← extend l actual;
  modify (set_pen l);;
  emit (ipc_sendMessage "buffer.clear" None);;
  emit io_sendBufferComplete.

(** [cncserver.pen.state]: a TypeError when [cncserver.pen] is no
    object. *)
Definition pen_state : M jsval :=
  s ← gets id;
  match heap s !! cncserver_pen s with
  | None => throw "TypeError"
  | Some p =>
      ret (match p !! "state" with
           | Some x => view (size (heap s)) (heap s) x
           | None => undefined
           end)
  end.

(** The [switch] of [cncserver.run]: the value of [c] on the way to
    [addItem], or [None] where a case executes [return false]. *)
Definition run_switch (command : string) (data : jsval) (duration : number)
  : M (option jsval) :=
  if String.eqb command "move" then
    x ← prop data "x";
    y ← prop data "y";
    source ← prop data "source";
    ret (Some (VObj [("type", VPrim (PStr "absmove")); ("x", x);
                     ("y", y); ("source", source)]))
  else if String.eqb command "height" then
    z ← prop data "z";
    source ← prop data "source";
    state ← pen_state;
    ret (Some (VObj [("type", VPrim (PStr "absheight")); ("z", z);
                     ("source", source); ("state", state)]))
  else if String.eqb command "message" then
    ret (Some (VObj [("type", VPrim (PStr "message")); ("message", data)]))
  else if String.eqb command "callbackname" then
    ret (Some (VObj [("type", VPrim (PStr "callbackname")); ("name", data)]))
  else if String.eqb command "wait" then
    if no_command "wait" then ret None
    else ret (Some (VPrim (PStr (cmdstr "wait"
                                   [("d", VPrim (PNum duration))]))))
  else if String.eqb command "custom" then ret (Some data)
  else if String.eqb command "callback" then ret (Some data)
  else ret None.

(** [cncserver.run] *)
Definition run (command : string) (data : jsval) (duration : duration_arg)
  : M bool :=
  let duration := clamp_duration duration in
  c ← run_switch command data duration;
  match c with
  | None => ret false
  | Some c =>
      l ← new_object;
      p ← gets cncserver_pen;
      l ← extend l p;
      addItem (Item c duration l);;
      ret true
  end.

(** An assignment [cncserver.pen[k] = v], as the modules that move the
    pen make it between two calls of [run]: a TypeError when
    [cncserver.pen] is no object. *)
Definition pen_assign (k : string) (v : prim) : M unit :=
  s ← gets id;
  match heap s !! cncserver_pen s with
  | None => throw "TypeError"
  | Some p => modify (set_heap (insert (cncserver_pen s) (<[k := HPrim v]> p)))
  end.

(** An assignment [cncserver.pen.k1. ... .kn[k] = v] to a field of an
    object held inside the pen state: a TypeError when the path leads to
    no object. With the empty path it is [pen_assign]. *)
Definition pen_assign_at (path : list string) (k : string) (v : prim)
  : M unit :=
  s ← gets id;
  match resolve (heap s) (cncserver_pen s) path with
  | None => throw "TypeError"
  | Some l =>
      match heap s !! l with
      | None => throw "TypeError"
      | Some o => modify (set_heap (insert l (<[k := HPrim v]> o)))
      end
  end.

(** The same with a new object for the value:
    [cncserver.pen.k1. ... .kn[k] = {}]. *)
Definition pen_assign_object (path : list string) (k : string) : M unit :=
  s ← gets id;
  match resolve (heap s) (cncserver_pen s) path with
  | None => throw "TypeError"
  | Some l =>
      match heap s !! l with
      | None => throw "TypeError"
      | Some o =>
          l' ← new_object;
          modify (set_heap (insert l (<[k := HRef l']> o)))
      end
  end.

End Queue.

(** ** Sequences of calls *)

(** Calls made one after the other while the store is [s]. *)
Definition seen_at (s : store) (cs : list call) : list notification :=
  (λ c, Notification c s) <$> cs.

(** A call into the module, or an assignment to a field of
    [cncserver.pen] made between two calls. *)
Inductive action : Type :=
  | ARun (command : string) (data : jsval) (duration : duration_arg)
  | AAddItem (it : item)
  | ARemoveItem
  | AClear
  | APause
  | AResume
  | AToggle (setPause : bool)
  | APenAssign (k : string) (v : prim).

(** The world a call leaves behind, whether it returns or throws: the
    exception ends the call, the next call finds the world as it is. *)
Definition perform (env : environment) (a : action) (w : world) : world :=
  match a with
  | ARun c d t => final (run env c d t w)
  | AAddItem it => final (addItem env it w)
  | ARemoveItem => final (removeItem w)
  | AClear => final (clear w)
  | APause => final (pause w)
  | AResume => final (resume w)
  | AToggle b => final (toggle b w)
  | APenAssign k v => final (pen_assign k v w)
  end.

Definition perform_all (env : environment) (acts : list action) (w : world)
  : world :=
  foldl (λ w a, perform env a w) w acts.

(** What can be done to the pen state after an enqueue: a call, or an
    assignment of a primitive value or of a new object to a field of the
    pen state or of an object held in it. *)
Inductive mutation : Type :=
  | Call (a : action)
  | Write (path : list string) (k : string) (v : prim)
  | WriteObject (path : list string) (k : string).

Definition mutate (env : environment) (m : mutation) (w : world) : world :=
  match m with
  | Call a => perform env a w
  | Write path k v => final (pen_assign_at path k v w)
  | WriteObject path k => final (pen_assign_object path k w)
  end.

Definition mutate_all (env : environment) (ms : list mutation) (w : world)
  : world :=
  foldl (λ w m, mutate env m w) w ms.

(** Calls that neither dequeue nor clear. *)
Definition keeps_items (a : action) : bool :=
  match a with
  | ARemoveItem | AClear => false
  | _ => true
  end.

(** [addItem] called on each item in turn. *)
Fixpoint enqueue_all (env : environment) (its : list item) : M unit :=
  match its with
  | [] => ret tt
  | it :: its' => addItem env it;; enqueue_all env its'
  end.

(** [removeItem] called [n] times, the handled items in call order. *)
Fixpoint removeItems (n : nat) : M (list (option item)) :=
  match n with
  | O => ret []
  | S n' =>
      it ← removeItem;
      its ← removeItems n';
      ret (it :: its)
  end.

(** ** What a call does to the store *)

(** The store after [extend({}, src)]: a new object at the first free
    address, holding the content of [src]. *)
Definition copy_into (s : store) (src : loc) : store :=
  set_heap (insert (fresh (dom (heap s))) (deref (heap s) src)) s.

(** The store after [data.unshift(hash); dataSet[hash] = item]. *)
Definition added (env : environment) (s : store) (it : item) : store :=
  set_dataSet (insert (item_hash env s it) it)
    (set_data (cons (item_hash env s it)) s).

(** The store after [data.pop()]. *)
Definition popped (s : store) : store := set_data (λ d, removelast d) s.

(** The store after [cncserver.actualPen = extend({}, item.pen)] in
    [removeItem]. *)
Definition confirmed (s : store) (it : item) : store :=
  set_actualPen (fresh (dom (heap s))) (copy_into (popped s) (pen it)).

(** The store after [clear]. *)
Definition cleared (s : store) : store :=
  set_pen (fresh (dom (heap s)))
    (copy_into (set_dataSet (λ _, ∅) (set_data (λ _, []) s))
       (cncserver_actualPen s)).

(** The store after [cncserver.pen[k] = v]. *)
Definition assigned (k : string) (v : prim) (s : store) : store :=
  set_heap (insert (cncserver_pen s)
              (<[k := HPrim v]> (deref (heap s) (cncserver_pen s)))) s.

(** The store after a [removeItem] that found a property of
    [Object.prototype]: [cncserver.actualPen] is a new empty object. *)
Definition unconfirmed (s : store) : store :=
  set_actualPen (fresh (dom (heap s)))
    (set_heap (insert (fresh (dom (heap s))) ∅) (popped s)).

Definition is_null (v : jsval) : bool :=
  match v with
  | VPrim PNull => true
  | _ => false
  end.

(** The stores a call can leave, case by case. A [run] that returns false
    or throws on [data] leaves the store as it was; one that reaches
    [addItem] has copied the pen state and added the item, whether or not
    [render] throws afterwards. *)
Inductive changes (env : environment) (s : store) : action → store → Prop :=
  | run_refused c d t :
      changes env s (ARun c d t) s
  | run_added c d t cv :
      changes env s (ARun c d t)
        (added env (copy_into s (cncserver_pen s))
           (Item cv (clamp_duration t) (fresh (dom (heap s)))))
  | item_added it :
      changes env s (AAddItem it) (added env s it)
  | nothing_removed :
      truthy (last (data s)) = None →
      changes env s ARemoveItem (popped s)
  | entry_missing h :
      truthy (last (data s)) = Some h →
      dataSet s !! h = None →
      changes env s ARemoveItem (popped s)
  | builtin_found h :
      truthy (last (data s)) = Some h →
      dataSet s !! h = None →
      changes env s ARemoveItem (unconfirmed s)
  | item_removed h it :
      truthy (last (data s)) = Some h →
      dataSet s !! h = Some it →
      is_null (command it) = false →
      changes env s ARemoveItem (set_dataSet (delete h) (confirmed s it))
  | trigger_failed h it :
      truthy (last (data s)) = Some h →
      dataSet s !! h = Some it →
      is_null (command it) = true →
      changes env s ARemoveItem (confirmed s it)
  | buffer_cleared :
      changes env s AClear (cleared s)
  | pause_set :
      changes env s APause (set_paused true s)
  | resume_set :
      changes env s AResume (set_paused false s)
  | toggle_set b :
      changes env s (AToggle b) (set_paused b s)
  | toggle_idle b :
      changes env s (AToggle b) s
  | pen_assigned k v :
      changes env s (APenAssign k v) (assigned k v s)
  | pen_missing k v :
      changes env s (APenAssign k v) s.

(** ** Invariants of the store *)

(** [cncserver.pen] is an object. *)
Definition pen_is_object (s : store) : Prop :=
  cncserver_pen s ∈ dom (heap s).

(** A reference leads to an object. *)
Definition leads_to_object (h : gmap loc penobj) (x : hval) : Prop :=
  match x with
  | HPrim _ => True
  | HRef l => l ∈ dom h
  end.

#[global] Instance leads_to_object_dec h x : Decision (leads_to_object h x).
Proof. destruct x; simpl; apply _. Defined.

(** Every reference held in a field of an object leads to an object, as
    it does in JavaScript. *)
Definition closed (h : gmap loc penobj) : Prop :=
  map_Forall (λ _ o, map_Forall (λ _ x, leads_to_object h x) o) h.

(** No field of an object holds a reference to [l]. *)
Definition unreferenced (l : loc) (h : gmap loc penobj) : Prop :=
  ∀ l0 o k, h !! l0 = Some o → o !! k ≠ Some (HRef l).

(** No field of the object holds an object. *)
Definition flat (o : penobj) : Prop :=
  map_Forall (λ _ x, match x with HPrim _ => True | HRef _ => False end) o.

(** The ids in [data] are pairwise distinct and none is the empty
    string. *)
Definition distinct_ids (s : store) : Prop :=
  NoDup (data s) ∧ EmptyString ∉ data s.

(** Every id in [data] has exactly one entry in [dataSet], and the other
    way round. *)
Definition consistent (s : store) : Prop :=
  distinct_ids s ∧ list_to_set (data s) = dom (dataSet s).

(** [getHash] never returns the empty string. *)
Definition proper_hash (env : environment) : Prop :=
  ∀ c d p, getHash env c d p ≠ EmptyString.

(** An enqueueing call that returns and leaves distinct ids; a dequeue
    that returns; any other call. *)
Definition good_call (env : environment) (a : action) (w : world) : Prop :=
  match a with
  | ARun c d t =>
      ∃ b w', run env c d t w = Ret b w' ∧ distinct_ids (st w')
  | AAddItem it =>
      ∃ w', addItem env it w = Ret tt w' ∧ distinct_ids (st w')
  | ARemoveItem => ∃ r w', removeItem w = Ret r w'
  | _ => True
  end.

Fixpoint good_calls (env : environment) (acts : list action) (w : world)
  : Prop :=
  match acts with
  | [] => True
  | a :: acts' => good_call env a w ∧ good_calls env acts' (perform env a w)
  end.

(** ** The properties as the specification words them *)

(** FIFO ordering: [n] enqueues from an empty buffer, then [n] dequeues,
    handle the items in the order of the enqueues. *)
Definition fifo_order (env : environment) (its : list item) (w : world)
  : Prop :=
  data (st w) = [] →
  ∀ w1, enqueue_all env its w = Ret tt w1 →
        ∃ w2, removeItems (length its) w1 = Ret (Some <$> its) w2.

(** Duplicate-id rejection: an item whose id is already in the store is
    refused and the entry stays as it was. *)
Definition duplicate_rejected (env : environment) (it : item) (w : world)
  : Prop :=
  item_hash env (st w) it ∈ dom (dataSet (st w)) →
  returned (addItem env it w) = None ∧
  dataSet (st (final (addItem env it w))) = dataSet (st w).

(** The same as an invariant: whatever calls are made, the ids of [data]
    and the entries of [dataSet] correspond. *)
Definition always_consistent (env : environment) (acts : list action)
    (w : world) : Prop :=
  consistent (st w) → consistent (st (perform_all env acts w)).

(** The duration [cncserver.run] stores: that of the newest item. *)
Definition stored_duration (w : world) : option number :=
  h ← head (data (st w));
  it ← dataSet (st w) !! h;
  Some (duration it).

(** Duration clamp as worded: the stored duration is an integer of at
    least 1; it is 1 for a duration that is zero, negative or missing, and
    the integer truncation of a positive duration. *)
Definition clamp_as_specified (d : duration_arg) (stored : number) : Prop :=
  ∃ n : N,
    stored = Finite false n [] ∧ (1 ≤ n)%N ∧
    match d with
    | Dundefined | Dnull => n = 1%N
    | Dnum (Finite negative whole fraction) =>
        if negative || is_zero whole fraction then n = 1%N else n = whole
    | Dnum (Infinity true) => n = 1%N
    | _ => True
    end.

Definition duration_clamped (env : environment) (command : string)
    (data : jsval) (duration : duration_arg) (w : world) : Prop :=
  ∀ w1, run env command data duration w = Ret true w1 →
        ∃ stored, stored_duration w1 = Some stored ∧
                  clamp_as_specified duration stored.

(** A number between 0 and 10^-6, which JavaScript prints with an
    exponent. *)
Definition tiny (whole : N) (fraction : list digit) : bool :=
  (whole =? 0)%N &&
  (6 <=? length (strip_zeros fraction)
         - length (drop_zeros (strip_zeros fraction)))%nat.

(** The durations for which the stored one is told by arithmetic: missing,
    zero, or a number JavaScript holds and prints digit by digit, from
    10^-6 up to 10^21. *)
Definition in_range (d : duration_arg) : Prop :=
  match d with
  | Dundefined | Dnull => True
  | Dnum (Finite _ whole fraction) =>
      is_zero whole fraction = true ∨
      ((whole < 10 ^ 21)%N ∧ to_double whole = Some whole ∧
       tiny whole fraction = false)
  | _ => False
  end.

(** What the code stores for them: 1 for a duration that is missing or
    below 1 in magnitude, the whole part of the magnitude otherwise. *)
Definition clamp_as_coded (d : duration_arg) : N :=
  match d with
  | Dnum (Finite _ whole _) => N.max 1 whole
  | _ => 1
  end.

(** A duration that is missing or a finite number. *)
Definition finite_or_missing (d : duration_arg) : Prop :=
  match d with
  | Dundefined | Dnull => True
  | Dnum (Finite _ whole _) => (whole < 2 ^ 1024 - 2 ^ 970)%N
  | _ => False
  end.

(** The pen snapshot [cncserver.run] stores: that of the newest item. *)
Definition stored_pen (w : world) : option loc :=
  h ← head (data (st w));
  it ← dataSet (st w) !! h;
  Some (pen it).

(** Snapshot immutability as worded: the snapshot is a deep copy, so
    whatever is done to [cncserver.pen] after the enqueue, the snapshot
    with all it holds reads as it did when the enqueue returned. *)
Definition deep_snapshot (env : environment) (command : string)
    (data : jsval) (duration : duration_arg) (ms : list mutation)
    (w : world) : Prop :=
  ∀ w1, run env command data duration w = Ret true w1 →
        ∃ l, stored_pen w1 = Some l ∧
             content (heap (st (mutate_all env ms w1))) l
             = content (heap (st w1)) l.

(** Enqueue failure as worded: [run] returns false exactly for an unknown
    kind. *)
Definition fails_iff_unknown (env : environment) (command : string)
    (data : jsval) (duration : duration_arg) (w : world) : Prop :=
  returned (run env command data duration w) = Some false ↔
  command ∉ supported.

(** The cases in which [run] executes [return false]. *)
Definition refused (env : environment) (command : string) : Prop :=
  command ∉ supported ∨ (command = "wait" ∧ no_command env "wait" = true).

(** Idempotence of a call: made twice in a row it leaves the world that
    one call leaves. *)
Definition idempotent (m : M unit) (w : world) : Prop :=
  final (m (final (m w))) = final (m w).

Definition is_error (l : console_line) : bool :=
  match l with
  | console_error _ => true
  | console_log _ => false
  end.

(** ** A reference environment *)

Definition dquote : string := String (ascii_of_nat 34) EmptyString.

Definition stringify_prim (p : prim) : string :=
  match p with
  | PStr s => dquote +:+ s +:+ dquote
  | _ => to_js_string (VPrim p)
  end.

Fixpoint stringify (v : jsval) : string :=
  match v with
  | VPrim p => stringify_prim p
  | VFun f => "function " +:+ f
  | VObj fs =>
      "{" +:+
      (fix fields (fs : list (string * jsval)) : string :=
         match fs with
         | [] => EmptyString
         | (k, x) :: fs' => k +:+ ":" +:+ stringify x +:+ "," +:+ fields fs'
         end) fs +:+ "}"
  end.

(** Modelled from the spec: [cncserver.utils.getHash] is not part of the
    module. The specification describes the identifier as derived
    deterministically from the content of the item and from nothing else;
    [content_digest] is such a function: the text of the command, of the
    duration and of the fields of the pen object, after a [#] so that it
    is never the empty string. *)
Definition content_digest (c : jsval) (d : number) (p : jsval) : string :=
  "#" +:+ stringify c +:+ "|" +:+ number_to_string d +:+ "|" +:+ stringify p.

(** A device profile in the style of the EiBotBoard one, the toggle bit not
    flipped, and position and height changes that carry the target
    coordinates and a settle time. *)
Definition reference_env : environment :=
  Environment
    (list_to_map [("movexy", "SM,%d,%x,%y"); ("movez", "S2,%z,4");
                  ("togglez", "SP,%t"); ("wait", "SM,%d,0,0")])
    false
    content_digest
    (λ source c, [("d", VPrim (PNum 100));
                  ("x", default undefined (get_prop c "x"));
                  ("y", default undefined (get_prop c "y"))])
    (λ source z, [("d", VPrim (PNum 50))])
    (λ f matched offset text, f +:+ "(" +:+ matched +:+ ")").

(** The same profile for a device without a [wait] command. *)
Definition no_wait_env : environment :=
  Environment
    (list_to_map [("movexy", "SM,%d,%x,%y"); ("movez", "S2,%z,4")])
    false
    content_digest
    (getPosChangeData reference_env)
    (getHeightChangeData reference_env)
    (call_replace reference_env).

(** A store with an empty buffer, the two pen states at the origin. *)
Definition park : penobj :=
  list_to_map [("x", HPrim (PNum 0)); ("y", HPrim (PNum 0));
               ("state", HPrim (PStr "up"))].

Definition initial_store : store :=
  Store (list_to_map [(1%positive, park); (2%positive, park)])
    1%positive 2%positive ∅ [] false false false None None.

Definition initial_world : world := World initial_store [] [].

(** A pen state that holds an object, the tool in use with its size, and
    a store whose planned pen is in that state. *)
Definition tool : penobj := {["size" := HPrim (PNum 1)]}.

Definition tooled : penobj := <["tool" := HRef 3%positive]> park.

Definition nested_world : world :=
  World
    (Store
       (list_to_map [(1%positive, tooled); (2%positive, park);
                     (3%positive, tool)])
       1%positive 2%positive ∅ [] false false false None None)
    [] [].

(** ** Sample payloads, items and worlds *)

Definition hi : jsval := VPrim (PStr "hi").

Definition corner : jsval :=
  VObj [("x", VPrim (PNum 10)); ("y", VPrim (PNum 20)); ("source", VObj [])].

Definition note (text : string) : jsval :=
  VObj [("type", VPrim (PStr "message")); ("message", VPrim (PStr text))].

(** Two items of the same content, their pen objects at different
    addresses, and a third of another content. *)
Definition first_note : item := Item (note "hi") 1 1%positive.
Definition second_note : item := Item (note "hi") 1 2%positive.
Definition third_note : item := Item (note "ho") 1 2%positive.

(** Two messages waiting, written out: the older one has id [a]. *)
Definition queued_world : world :=
  World
    (Store
       (list_to_map [(1%positive, park); (2%positive, park);
                     (3%positive, park)])
       1%positive 2%positive
       (list_to_map [("b", Item hi 2 3%positive); ("a", Item hi 1 3%positive)])
       ["b"; "a"] false false false None None)
    [] [].

(** One move waiting in the buffer. *)
Definition busy_world : world :=
  perform reference_env (ARun "move" corner (Dnum 5)) initial_world.

(** What a producer does after an enqueue: it moves the pen on and
    enqueues more. *)
Definition later_calls : list action :=
  [APenAssign "x" (PNum 10); ARun "message" hi (Dnum 2); APause;
   APenAssign "state" (PStr "draw"); ARun "move" corner Dundefined].

(** The same, the tool resized before and replaced after. *)
Definition later_mutations : list mutation :=
  Write ["tool"] "size" (PNum 2) :: (Call <$> later_calls)
  ++ [WriteObject [] "tool"; Write ["tool"] "size" (PNum 3);
      Call ARemoveItem; Call AClear].

(** A pause, a dequeue and an enqueue. *)
Definition steady_calls : list action :=
  [APause; ARemoveItem; ARun "message" hi (Dnum 2)].

(** An enqueue with [null] for its payload, and the dequeue of it. *)
Definition null_calls : list action :=
  [ARun "custom" (VPrim PNull) Dundefined; ARemoveItem].

(** The same message enqueued twice, then one dequeue: the id is still in
    [data], its entry is gone from [dataSet]. *)
Definition desynchronised : world :=
  perform_all reference_env
    [ARun "message" hi (Dnum 1); ARun "message" hi (Dnum 1); ARemoveItem]
    initial_world.

(** ** The rest of the module and the drawing breakdown: definitions *)

(** The calls a world has recorded since an earlier one. *)
Definition sent_since (w w' : world) : list call :=
  sent <$> drop (length (out w)) (out w').

(** The calls [trigger] makes for a command that is not [null], read off
    its branches. *)
Definition trigger_calls (c : jsval) : list call :=
  match c with
  | VFun f => [call_command f 1]
  | VObj fs =>
      if is_str (default undefined (field "type" fs)) "message"
      then [io_sendMessageUpdate (default undefined (field "message" fs))]
      else if is_str (default undefined (field "type" fs)) "callbackname"
      then [io_sendCallbackUpdate (default undefined (field "name" fs))]
      else []
  | VPrim _ => []
  end.

(** The values on which a property read throws: [undefined] and [null]. *)
Definition nullish (v : jsval) : bool :=
  match v with
  | VPrim PUndef | VPrim PNull => true
  | _ => false
  end.

(** The outcome of [run], kind by kind: [Some true], [Some false], or
    [None] where it throws. [pen_object] tells whether [cncserver.pen] is
    an object. *)
Definition run_outcome (env : environment) (command : string) (data : jsval)
    (pen_object : bool) : option bool :=
  if String.eqb command "move" then
    if nullish data then None else Some true
  else if String.eqb command "height" then
    if nullish data || negb pen_object then None else Some true
  else if String.eqb command "message" || String.eqb command "callbackname"
  then Some true
  else if String.eqb command "wait" then Some (negb (no_command env "wait"))
  else if String.eqb command "custom" || String.eqb command "callback" then
    if is_null data then None else Some true
  else Some false.

(** What the dequeue of an item made by [run] sets off besides the pen
    update and the removal, by kind and payload. *)
Definition side_effect_of (command : string) (data : jsval) : list call :=
  if String.eqb command "message" then [io_sendMessageUpdate data]
  else if String.eqb command "callbackname" then [io_sendCallbackUpdate data]
  else if String.eqb command "custom" || String.eqb command "callback"
  then trigger_calls data
  else [].

(** Does the character occur in the string? *)
Fixpoint has_char (c : ascii) (s : string) : bool :=
  match s with
  | EmptyString => false
  | String d s' => Ascii.eqb d c || has_char c s'
  end.

(** A template made of placeholders, each with the value meant for it and
    the piece of text that follows it. *)
Fixpoint template_of (parts : list (string * jsval * string)) : string :=
  match parts with
  | [] => EmptyString
  | (k, _, piece) :: rest => "%" +:+ k +:+ piece +:+ template_of rest
  end.

(** The same pieces with each value in the place of its placeholder. *)
Fixpoint filled (parts : list (string * jsval * string)) : string :=
  match parts with
  | [] => EmptyString
  | (_, v, piece) :: rest => to_js_string v +:+ piece +:+ filled rest
  end.

(** A piece holds no percent sign; a value is no function, and its text
    holds neither a percent sign nor a dollar sign. *)
Definition plain_part (part : string * jsval * string) : bool :=
  match part.1.2 with VFun _ => false | _ => true end &&
  negb (has_char "%" part.2) &&
  negb (has_char "%" (to_js_string part.1.2)) &&
  negb (has_char "$" (to_js_string part.1.2)).

(** The keys differ and none is an array index: [for ... in] visits them
    in the order in which they are written. *)
Definition named_keys (fs : list (string * jsval)) : Prop :=
  NoDup fs.*1 ∧ Forall (λ kv, array_index kv.1 = None) fs.

(** *** Drawing project breakdown (src/unnamed/part_000) *)

(** [!!v] for a primitive value. *)
Definition js_truthy (v : prim) : bool :=
  match v with
  | PUndef | PNull => false
  | PBool b => b
  | PNum x => negb (js_not (Dnum x))
  | PStr s => negb (String.eqb s EmptyString)
  end.

(** An item of an imported drawing: the value of its [length] property
    and its [children]; an item without a [children] array has none. *)
Inductive paper_item : Type :=
  | PaperItem (path_length : prim) (children : list paper_item).

Definition path_length (p : paper_item) : prim :=
  match p with PaperItem l _ => l end.

Definition children (p : paper_item) : list paper_item :=
  match p with PaperItem _ cs => cs end.

(** [getPaths(parent, items)] *)
Fixpoint getPaths (parent : paper_item) (items : list paper_item)
  : list paper_item :=
  match parent with
  | PaperItem _ [] => items ++ [parent]
  | PaperItem _ cs =>
      items ++ foldl (λ moreItems child, getPaths child moreItems) [] cs
  end.

(** The childless descendants of an item, in document order. *)
Fixpoint leaves (p : paper_item) : list paper_item :=
  match p with
  | PaperItem _ [] => [p]
  | PaperItem _ cs => concat (map leaves cs)
  end.

(** A job handed to [cncserver.jobs.addItem]. *)
Record job : Type := Job {
  operation : string;
  job_type : string;
  parent : string;
  body : paper_item;
}.

(** The loop that ends [project]: the jobs handed to
    [cncserver.jobs.addItem], in call order, for the imported [item]. The
    import and the fit to the bounds are done by the drawing library. *)
Definition project (item : paper_item) (hash : string) : list job :=
  foldl (λ jobs path,
           if js_truthy (path_length path)
           then jobs ++ [Job "trace" "job" hash path]
           else jobs)
    [] (getPaths item []).

(** *** More sample data *)

(** A store whose [data] holds an id that has no entry. *)
Definition orphan_world : world :=
  World
    (Store (list_to_map [(1%positive, park); (2%positive, park)])
       1%positive 2%positive ∅ ["a"] false false false None None)
    [] [].

(** A store whose [data] holds [constructor], which has no entry. *)
Definition inheriting_world : world :=
  World
    (Store (list_to_map [(1%positive, park); (2%positive, park)])
       1%positive 2%positive ∅ ["constructor"] false false false None None)
    [] [].

(** An item whose command is [null], and a store that holds it. *)
Definition null_item : item := Item (VPrim PNull) 1 3%positive.

Definition poisoned_world : world :=
  World
    (Store
       (list_to_map [(1%positive, park); (2%positive, park);
                     (3%positive, park)])
       1%positive 2%positive (list_to_map [("n", null_item)])
       ["n"] false false false None None)
    [] [].

(** A height change as [run] builds it. *)
Definition lift : item :=
  Item (VObj [("type", VPrim (PStr "absheight")); ("z", VPrim (PNum 3));
              ("source", undefined); ("state", VPrim (PStr "up"))])
    1 1%positive.

(** The values of a move, in the order of the [movexy] template. *)
Definition move_parts : list (string * jsval * string) :=
  [("d", VPrim (PNum 100), ","); ("x", VPrim (PNum 10), ",");
   ("y", VPrim (PNum 20), EmptyString)].

(** A device with a command that takes no value. *)
Definition fixed_env : environment :=
  Environment
    (list_to_map [("penup", "SP,1")])
    false
    content_digest
    (getPosChangeData reference_env)
    (getHeightChangeData reference_env)
    (call_replace reference_env).

(** Calls among which there is no dequeue. *)
Definition calm_calls : list action :=
  [APenAssign "x" (PNum 10); ARun "message" hi (Dnum 2); APause; AClear].

(** A drawing: a group holding a path, a path of length 0 and a compound
    of two paths. *)
Definition sketch : paper_item :=
  PaperItem PUndef
    [PaperItem (PNum 12) []; PaperItem (PNum 0) [];
     PaperItem (PNum 7) [PaperItem (PNum 3) []; PaperItem (PNum 4) []]].

(** * Properties *)

(** ** Lists, strings and the heap *)

Lemma truthy_last_Some (d : list string) h :
  truthy (last d) = Some h → last d = Some h ∧ h ≠ EmptyString.
Proof.
  unfold truthy. destruct (last d) as [h'|]; [|done].
  destruct (String.eqb_spec h' EmptyString); [done|].
  intros [= ->]. done.
Qed.

Lemma truthy_Some (h : string) : h ≠ EmptyString → truthy (Some h) = Some h.
Proof. intros Hh. simpl. by destruct (String.eqb_spec h EmptyString). Qed.

Lemma removelast_snoc (d : list string) h :
  last d = Some h → d = removelast d ++ [h].
Proof. intros [d' ->]%last_Some. by rewrite removelast_last. Qed.

Lemma supported_spec c :
  c ∈ supported ↔
  c = "move" ∨ c = "height" ∨ c = "message" ∨ c = "callbackname" ∨
  c = "wait" ∨ c = "custom" ∨ c = "callback".
Proof. unfold supported. rewrite !elem_of_cons, elem_of_nil. tauto. Qed.

Lemma fresh_unallocated (h : gmap loc penobj) : h !! fresh (dom h) = None.
Proof. apply not_elem_of_dom, is_fresh. Qed.

Lemma fresh_ne (h : gmap loc penobj) l : l ∈ dom h → fresh (dom h) ≠ l.
Proof. intros Hl <-. by apply (is_fresh (dom h)). Qed.

Lemma deref_insert_eq (h : gmap loc penobj) l p : deref (<[l:=p]> h) l = p.
Proof. unfold deref. by rewrite lookup_insert_eq. Qed.

Lemma lookup_insert_fresh (h : gmap loc penobj) p l :
  l ∈ dom h → <[fresh (dom h):=p]> h !! l = h !! l.
Proof. intros Hl. apply lookup_insert_ne. by apply fresh_ne. Qed.

Lemma deref_copy_src (h : gmap loc penobj) src :
  deref (<[fresh (dom h):=deref h src]> h) src = deref h src.
Proof.
  destruct (decide (src ∈ dom h)) as [Hl|Hl].
  - unfold deref. by rewrite lookup_insert_fresh.
  - destruct (decide (fresh (dom h) = src)) as [->|Hne].
    + apply deref_insert_eq.
    + unfold deref. by rewrite lookup_insert_ne.
Qed.

(** [extend({}, src)] leaves the content of [src] at the new address,
    also when [src] is not an object. *)
Lemma extend_new s src :
  extend_store (fresh (dom (heap s))) src
    (set_heap (insert (fresh (dom (heap s))) ∅) s)
  = copy_into s src.
Proof.
  unfold extend_store, copy_into, set_heap, deref; simpl.
  pose proof (fresh_unallocated (heap s)) as Hl.
  set (l := fresh (dom (heap s))) in *.
  destruct (decide (src = l)) as [->|Hne].
  - rewrite lookup_insert_eq, Hl; simpl.
    by rewrite insert_insert_eq, (left_id_L ∅ (∪)).
  - rewrite lookup_insert_ne by done.
    destruct (heap s !! src) as [o|]; simpl; [|done].
    rewrite lookup_insert_eq, insert_insert_eq; simpl.
    by rewrite (right_id_L ∅ (∪)).
Qed.

Lemma hex_not_empty s : s ≠ EmptyString → hex s ≠ EmptyString.
Proof. by destruct s. Qed.

Lemma item_hash_proper env s it :
  proper_hash env → item_hash env s it ≠ EmptyString.
Proof. intros Hp. apply hex_not_empty, Hp. Qed.

Lemma reference_hash_proper : proper_hash reference_env.
Proof. intros c d p. simpl. unfold content_digest. simpl. discriminate. Qed.

(** ** The functions, call by call *)

Ltac unfold_m :=
  unfold mbind, M_bind, bind, mret, M_ret, ret, gets, modify, emit, log,
    throw in *.

Lemma clear_eq w :
  clear w
  = Ret tt (World (cleared (st w))
      (out w ++ seen_at (cleared (st w))
                  [ipc_sendMessage "buffer.clear" None; io_sendBufferComplete])
      (console w)).
Proof.
  unfold clear, new_object, extend. unfold_m. simpl.
  change (heap (st w))
    with (heap (set_dataSet (λ _, ∅) (set_data (λ _, []) (st w)))).
  rewrite extend_new. simpl. rewrite <- app_assoc. reflexivity.
Qed.

Lemma pause_eq w :
  pause w
  = Ret tt (World (set_paused true (st w))
      (out w ++ seen_at (set_paused true (st w))
                  [ipc_sendMessage "buffer.pause" None; io_sendBufferVars])
      (console w)).
Proof. unfold pause. unfold_m. simpl. by rewrite <- app_assoc. Qed.

Lemma resume_eq w :
  resume w
  = Ret tt (World (set_paused false (st w))
      (out w ++ seen_at (set_paused false (st w))
                  [ipc_sendMessage "buffer.resume" None; io_sendBufferVars])
      (console w)).
Proof. unfold resume. unfold_m. simpl. by rewrite <- app_assoc. Qed.

Lemma toggle_eq b w :
  toggle b w =
  if b && negb (paused (st w)) then pause w
  else if negb b && paused (st w) then resume w
  else Ret tt w.
Proof.
  unfold toggle. unfold_m. simpl.
  destruct (b && negb (paused (st w))); [done|].
  by destruct (negb b && paused (st w)).
Qed.

Lemma prop_cases v k w :
  (∃ x, prop v k w = Ret x w) ∨ prop v k w = Throw "TypeError" w.
Proof.
  unfold prop. destruct (get_prop v k); [left; eexists|right]; reflexivity.
Qed.

(** [trigger] throws on a [null] command and nowhere else; it sends its
    notifications and leaves the store alone. *)
Lemma trigger_cases it w :
  (is_null (command it) = false ∧
   ∃ b cs, trigger it w
           = Ret b (World (st w) (out w ++ seen_at (st w) cs) (console w)))
  ∨ (is_null (command it) = true ∧ trigger it w = Throw "TypeError" w).
Proof.
  destruct w as [s o c]. unfold trigger.
  destruct (command it) as [[| |b|z|str]|f|fs]; simpl;
    try (left; split; [done|]; exists false, []; simpl;
         by rewrite app_nil_r).
  - right. done.
  - left. split; [done|]. exists true, [call_command f 1]. done.
  - left. split; [done|]. unfold prop, get_prop. unfold_m. simpl.
    destruct (is_str _ "message").
    + eexists true, [_]. simpl. reflexivity.
    + destruct (is_str _ "callbackname").
      * eexists true, [_]. simpl. reflexivity.
      * exists false, []. simpl. by rewrite app_nil_r.
Qed.

(** [render] throws on a [null] command and nowhere else, and changes
    nothing. *)
Lemma render_cases env it w :
  (is_null (command it) = false ∧ ∃ r, render env it w = Ret r w)
  ∨ (is_null (command it) = true ∧ render env it w = Throw "TypeError" w).
Proof.
  unfold render.
  destruct (command it) as [[| |b|z|str]|f|fs] eqn:E; simpl;
    try (left; split; [done|]; eexists; reflexivity).
  - right. done.
  - left. split; [done|]. unfold prop, get_prop. unfold_m. simpl.
    destruct (is_str _ "absmove"); [eexists; reflexivity|].
    destruct (is_str _ "absheight"); eexists; reflexivity.
Qed.

Lemma addItem_cases env it w :
  let h := item_hash env (st w) it in
  let s1 := added env (st w) it in
  (is_null (command it) = false ∧
   ∃ r, addItem env it w
        = Ret tt (World s1
            (out w ++ seen_at s1
               [ipc_sendMessage "buffer.add"
                  (Some (AddMessage h r (duration it)));
                io_sendBufferAdd it h])
            (console w)))
  ∨ (is_null (command it) = true ∧
     addItem env it w = Throw "TypeError" (World s1 (out w) (console w))).
Proof.
  intros h s1. unfold addItem. unfold_m. simpl.
  match goal with
  | |- context [render env it ?w'] =>
      destruct (render_cases env it w') as [[Hn [r Hr]]|[Hn Hr]]
  end; [left|right]; (split; [done|]).
  - exists r. rewrite Hr. simpl. by rewrite <- app_assoc.
  - by rewrite Hr.
Qed.

Lemma addItem_returns env it w w1 :
  addItem env it w = Ret tt w1 →
  is_null (command it) = false ∧ st w1 = added env (st w) it.
Proof.
  intros Ha.
  destruct (addItem_cases env it w) as [[Hn [r He]]|[_ He]];
    rewrite He in Ha; [|discriminate].
  by injection Ha as <-.
Qed.

(** The ways through [removeItem]: nothing truthy popped; an id without
    an entry, which is or is not the name of a property every object
    inherits; an id with its item. *)
Lemma removeItem_cases w :
  let s1 := popped (st w) in
  let log1 := console_log [VPrim (PStr "Removing Item hash:");
                           hash_val (last (data (st w)))] in
  (truthy (last (data (st w))) = None ∧
   removeItem w
   = Ret None (World s1 (out w)
       (console w ++ [log1; console_error
          [VPrim (PStr "End IPC/Buffer Item & Hash Mismatch. This should never happen!")]])))
  ∨ (∃ h, truthy (last (data (st w))) = Some h ∧
          dataSet (st w) !! h = None ∧
          (((h ∉ inherited) ∧
            removeItem w
            = Throw "TypeError" (World s1 (out w) (console w ++ [log1])))
           ∨ ((h ∈ inherited) ∧
              removeItem w
              = Ret None
                  (World (unconfirmed (st w))
                     (out w ++ seen_at (unconfirmed (st w))
                                 [io_sendPenUpdate; io_sendBufferRemove])
                     (console w ++ [log1])))))
  ∨ (∃ h it,
       truthy (last (data (st w))) = Some h ∧
       dataSet (st w) !! h = Some it ∧
       let s2 := confirmed (st w) it in
       let o2 := out w ++ seen_at s2 [io_sendPenUpdate] in
       (is_null (command it) = false ∧
        ∃ cs, removeItem w
          = Ret (Some it)
              (World (set_dataSet (delete h) s2)
                 (o2 ++ seen_at s2 cs ++
                    seen_at (set_dataSet (delete h) s2) [io_sendBufferRemove])
                 (console w ++ [log1])))
       ∨ (is_null (command it) = true ∧
          removeItem w = Throw "TypeError" (World s2 o2 (console w ++ [log1])))).
Proof.
  intros s1 log1. unfold removeItem, pop.
  destruct (truthy (last (data (st w)))) as [h|] eqn:Ht.
  - right. unfold_m. simpl. rewrite Ht. simpl.
    destruct (dataSet (st w) !! h) as [it|] eqn:Hit.
    + right. exists h, it. split; [done|]. split; [done|].
      unfold new_object, extend. unfold_m. simpl.
      change (heap (st w)) with (heap (popped (st w))). rewrite extend_new.
      fold log1. simpl.
      match goal with
      | |- context [trigger it ?w'] =>
          destruct (trigger_cases it w') as [[Hn [b [cs Hr]]]|[Hn Hr]]
      end; [left|right]; (split; [done|]).
      * exists cs. rewrite Hr. simpl. by rewrite <- !app_assoc.
      * by rewrite Hr.
    + left. exists h. split; [done|]. split; [done|].
      destruct (decide (h ∈ inherited)) as [Hin|Hin].
      * right. split; [done|]. rewrite bool_decide_eq_true_2 by done.
        unfold new_object. unfold_m. simpl. by rewrite <- !app_assoc.
      * left. split; [done|]. by rewrite bool_decide_eq_false_2 by done.
  - left. split; [done|]. unfold_m. simpl. rewrite Ht. simpl.
    by rewrite <- app_assoc.
Qed.

Lemma removeItem_empty w :
  data (st w) = [] →
  ∃ line1 line2,
    removeItem w
    = Ret None (World (st w) (out w)
                  (console w ++ [console_log line1; console_error line2])).
Proof.
  intros Hd.
  destruct (removeItem_cases w) as [[_ He]|[(h & Ht & _)|(h & it & Ht & _)]].
  - eexists _, _. rewrite He. f_equal. f_equal.
    destruct w as [[] ? ?]; simpl in *. by subst.
  - rewrite Hd in Ht. done.
  - rewrite Hd in Ht. done.
Qed.

Lemma pen_state_cases w :
  (pen_is_object (st w) ∧ ∃ x, pen_state w = Ret x w)
  ∨ (¬ pen_is_object (st w) ∧ pen_state w = Throw "TypeError" w).
Proof.
  unfold pen_state, pen_is_object. unfold_m. simpl.
  destruct (heap (st w) !! cncserver_pen (st w)) as [p|] eqn:Hp.
  - left. split; [by apply elem_of_dom|]. eexists. reflexivity.
  - right. split; [by apply not_elem_of_dom|]. done.
Qed.

Lemma run_switch_cases env c d z w :
  (refused env c ∧ run_switch env c d z w = Ret None w)
  ∨ (¬ refused env c ∧
     (run_switch env c d z w = Throw "TypeError" w
      ∨ ∃ cv, run_switch env c d z w = Ret (Some cv) w)).
Proof.
  unfold run_switch, refused. rewrite supported_spec.
  destruct (String.eqb_spec c "move") as [->|?].
  { right. split; [intros [H|[H _]]; [tauto|done]|].
    unfold_m.
    destruct (prop_cases d "x" w) as [[x Hp]|Hp]; rewrite Hp; [|by left].
    destruct (prop_cases d "y" w) as [[y Hq]|Hq]; rewrite Hq; [|by left].
    destruct (prop_cases d "source" w) as [[u Hu]|Hu]; rewrite Hu; [|by left].
    right. eexists. reflexivity. }
  destruct (String.eqb_spec c "height") as [->|?].
  { right. split; [intros [H|[H _]]; [tauto|done]|].
    unfold_m.
    destruct (prop_cases d "z" w) as [[x Hp]|Hp]; rewrite Hp; [|by left].
    destruct (prop_cases d "source" w) as [[u Hu]|Hu]; rewrite Hu; [|by left].
    destruct (pen_state_cases w) as [[_ [a Ha]]|[_ Ha]]; rewrite Ha;
      [|by left].
    right. eexists. reflexivity. }
  destruct (String.eqb_spec c "message") as [->|?].
  { right. split; [intros [H|[H _]]; [tauto|done]|].
    right. eexists. reflexivity. }
  destruct (String.eqb_spec c "callbackname") as [->|?].
  { right. split; [intros [H|[H _]]; [tauto|done]|].
    right. eexists. reflexivity. }
  destruct (String.eqb_spec c "wait") as [->|?].
  { destruct (no_command env "wait") eqn:Hw.
    - left. split; [by right|done].
    - right. split; [intros [H|[_ H]]; [tauto|done]|].
      right. eexists. reflexivity. }
  destruct (String.eqb_spec c "custom") as [->|?].
  { right. split; [intros [H|[H _]]; [tauto|done]|].
    right. eexists. reflexivity. }
  destruct (String.eqb_spec c "callback") as [->|?].
  { right. split; [intros [H|[H _]]; [tauto|done]|].
    right. eexists. reflexivity. }
  left. split; [left; tauto|done].
Qed.

(** [run] returns false, or throws while reading [data], with the world
    untouched; or it copies the pen state and calls [addItem]. *)
Lemma run_cases env c d t w :
  (refused env c ∧ run env c d t w = Ret false w)
  ∨ (¬ refused env c ∧
     (run env c d t w = Throw "TypeError" w
      ∨ ∃ cv,
          let it := Item cv (clamp_duration t) (fresh (dom (heap (st w)))) in
          let w1 := World (copy_into (st w) (cncserver_pen (st w)))
                      (out w) (console w) in
          run_switch env c d (clamp_duration t) w = Ret (Some cv) w ∧
          run env c d t w = (addItem env it ≫= λ _, ret true) w1)).
Proof.
  unfold run.
  destruct (run_switch_cases env c d (clamp_duration t) w)
    as [[Hr Hs]|[Hr [Hs|[cv Hs]]]]; [left|right..]; (split; [done|]).
  - unfold_m. by rewrite Hs.
  - left. unfold_m. by rewrite Hs.
  - right. exists cv. split; [done|].
    unfold new_object, extend. unfold_m. rewrite Hs. simpl.
    by rewrite extend_new.
Qed.

(** Picks the call of [addItem] in [H] and splits on whether [render]
    returns. *)
Ltac split_addItem env H :=
  unfold mbind, M_bind, bind in H;
  match type of H with
  | context [addItem env ?it ?w1] =>
      let Hn := fresh "Hn" in
      let r := fresh "r" in
      let Ha := fresh "Ha" in
      destruct (addItem_cases env it w1) as [[Hn [r Ha]]|[Hn Ha]];
      rewrite Ha in H
  end.

Lemma run_returns_true env c d t w w1 :
  run env c d t w = Ret true w1 →
  ∃ cv, is_null cv = false ∧
        st w1 = added env (copy_into (st w) (cncserver_pen (st w)))
                  (Item cv (clamp_duration t) (fresh (dom (heap (st w))))).
Proof.
  intros Hrun.
  destruct (run_cases env c d t w) as [[_ He]|[_ [He|[cv [_ He]]]]];
    rewrite He in Hrun; try discriminate.
  split_addItem env Hrun; [|discriminate].
  injection Hrun as <-. by exists cv.
Qed.

Lemma run_returns_false env c d t w w1 :
  run env c d t w = Ret false w1 → w1 = w.
Proof.
  intros Hrun.
  destruct (run_cases env c d t w) as [[_ He]|[_ [He|[cv [_ He]]]]];
    rewrite He in Hrun; try discriminate.
  - by injection Hrun as <-.
  - split_addItem env Hrun; discriminate.
Qed.

(** Every call changes the store in one of the listed ways. *)
Lemma perform_changes env a w : changes env (st w) a (st (perform env a w)).
Proof.
  destruct a as [c d t|it| | | | |b|k v]; cbn [perform].
  - destruct (run_cases env c d t w) as [[_ He]|[_ [He|[cv [_ He]]]]];
      rewrite He; try apply run_refused.
    unfold mbind, M_bind, bind.
    match goal with
    | |- context [addItem env ?it ?w1] =>
        destruct (addItem_cases env it w1) as [[_ [r Ha]]|[_ Ha]]
    end; rewrite Ha; apply run_added.
  - destruct (addItem_cases env it w) as [[_ [r Ha]]|[_ Ha]];
      rewrite Ha; apply item_added.
  - destruct (removeItem_cases w)
      as [[Ht He]|[(h & Ht & Hit & He)|(h & it & Ht & Hit & He)]].
    + rewrite He. by apply nothing_removed.
    + destruct He as [[_ He]|[_ He]]; rewrite He.
      * by eapply entry_missing.
      * by eapply builtin_found.
    + cbv zeta in He. destruct He as [[Hn [cs He]]|[Hn He]]; rewrite He.
      * by apply item_removed.
      * by eapply trigger_failed.
  - rewrite clear_eq. apply buffer_cleared.
  - rewrite pause_eq. apply pause_set.
  - rewrite resume_eq. apply resume_set.
  - rewrite toggle_eq.
    destruct b, (paused (st w)); simpl;
      rewrite ?pause_eq, ?resume_eq; try apply toggle_idle; apply toggle_set.
  - unfold pen_assign. unfold_m. simpl.
    destruct (heap (st w) !! cncserver_pen (st w)) as [p|] eqn:Hp.
    + replace (World _ _ _)
        with (World (assigned k v (st w)) (out w) (console w));
        [apply pen_assigned|].
      unfold assigned, deref. by rewrite Hp.
    + apply pen_missing.
Qed.

Lemma perform_all_cons env a acts w :
  perform_all env (a :: acts) w = perform_all env acts (perform env a w).
Proof. reflexivity. Qed.

Lemma perform_all_app env acts acts' w :
  perform_all env (acts ++ acts') w
  = perform_all env acts' (perform_all env acts w).
Proof. apply foldl_app. Qed.

(** ** What the calls preserve *)

(** An object that is not [cncserver.pen] is never written: the calls
    write to new objects and to the fields of [cncserver.pen] only. *)
Lemma changes_keeps env s a s' l p :
  changes env s a s' →
  heap s !! l = Some p → cncserver_pen s ≠ l →
  heap s' !! l = Some p ∧ cncserver_pen s' ≠ l.
Proof.
  intros Hc Hl Hp.
  assert (Hf : fresh (dom (heap s)) ≠ l).
  { apply fresh_ne. apply elem_of_dom. by exists p. }
  destruct Hc; simpl; rewrite ?lookup_insert_ne by done; done.
Qed.

Lemma perform_all_keeps env acts : ∀ w l p,
  heap (st w) !! l = Some p → cncserver_pen (st w) ≠ l →
  heap (st (perform_all env acts w)) !! l = Some p ∧
  cncserver_pen (st (perform_all env acts w)) ≠ l.
Proof.
  induction acts as [|a acts IH]; intros w l p Hl Hp; [done|].
  rewrite perform_all_cons.
  destruct (changes_keeps env _ a _ l p (perform_changes env a w) Hl Hp).
  by apply IH.
Qed.

Lemma unreferenced_insert l h l1 o :
  unreferenced l h → (∀ k, o !! k ≠ Some (HRef l)) →
  unreferenced l (<[l1:=o]> h).
Proof.
  intros Hh Ho l0 o0 k. destruct (decide (l1 = l0)) as [->|Hne].
  - rewrite lookup_insert_eq. intros [= <-]. apply Ho.
  - rewrite lookup_insert_ne by done. apply Hh.
Qed.

Lemma unreferenced_deref l h l0 k :
  unreferenced l h → deref h l0 !! k ≠ Some (HRef l).
Proof.
  intros Hh. unfold deref. destruct (h !! l0) as [o|] eqn:Ho; simpl.
  - by apply (Hh l0).
  - by rewrite lookup_empty.
Qed.

Lemma unreferenced_assigned l h l0 k v :
  unreferenced l h → ∀ k', <[k:=HPrim v]> (deref h l0) !! k' ≠ Some (HRef l).
Proof.
  intros Hh k'. destruct (decide (k = k')) as [->|Hne].
  - by rewrite lookup_insert_eq.
  - rewrite lookup_insert_ne by done. by apply unreferenced_deref.
Qed.

(** No call makes a field refer to an object that no field referred
    to. *)
Lemma changes_unreferenced env s a s' l :
  changes env s a s' → unreferenced l (heap s) → unreferenced l (heap s').
Proof.
  intros Hc Hl.
  destruct Hc; simpl; try done;
    repeat first [apply unreferenced_insert
                 | apply unreferenced_assigned
                 | intros ?; apply unreferenced_deref
                 | intros ?; by rewrite lookup_empty
                 | done].
Qed.

(** A path from an object that is not [l] leads to [l] only through a
    field that refers to it. *)
Lemma resolve_unreferenced l h path : ∀ l0 l',
  unreferenced l h → l0 ≠ l → resolve h l0 path = Some l' → l' ≠ l.
Proof.
  induction path as [|k path IH]; intros l0 l' Hh Hne Hr; simpl in Hr.
  - by injection Hr as <-.
  - destruct (deref h l0 !! k) as [[p|l1]|] eqn:Hk; try done.
    apply (IH l1 l' Hh); [|done].
    intros ->. by apply (unreferenced_deref l h l0 k Hh).
Qed.

Lemma mutate_all_cons env m ms w :
  mutate_all env (m :: ms) w = mutate_all env ms (mutate env m w).
Proof. reflexivity. Qed.

(** An object that is not [cncserver.pen] and that no field refers to is
    never written, and stays such an object. *)
Lemma mutate_keeps env m w l p :
  heap (st w) !! l = Some p → cncserver_pen (st w) ≠ l →
  unreferenced l (heap (st w)) →
  heap (st (mutate env m w)) !! l = Some p ∧
  cncserver_pen (st (mutate env m w)) ≠ l ∧
  unreferenced l (heap (st (mutate env m w))).
Proof.
  intros Hl Hp Hu. destruct m as [a|path k v|path k]; cbn [mutate].
  - pose proof (perform_changes env a w) as Hc.
    destruct (changes_keeps env _ a _ l p Hc Hl Hp) as [Hl' Hp'].
    split; [done|]. split; [done|]. by eapply changes_unreferenced.
  - unfold pen_assign_at. unfold_m. simpl.
    destruct (resolve (heap (st w)) (cncserver_pen (st w)) path)
      as [l'|] eqn:Hr; [|done].
    destruct (heap (st w) !! l') as [o|] eqn:Ho; [|done]. simpl.
    pose proof (resolve_unreferenced l _ path _ l' Hu Hp Hr) as Hne.
    rewrite lookup_insert_ne by done.
    split; [done|]. split; [done|].
    apply unreferenced_insert; [done|].
    replace o with (deref (heap (st w)) l')
      by (unfold deref; by rewrite Ho).
    by apply unreferenced_assigned.
  - unfold pen_assign_object, new_object. unfold_m. simpl.
    destruct (resolve (heap (st w)) (cncserver_pen (st w)) path)
      as [l'|] eqn:Hr; [|done].
    destruct (heap (st w) !! l') as [o|] eqn:Ho; [|done]. simpl.
    pose proof (resolve_unreferenced l _ path _ l' Hu Hp Hr) as Hne.
    assert (Hf : fresh (dom (heap (st w))) ≠ l).
    { apply fresh_ne. apply elem_of_dom. by exists p. }
    rewrite !lookup_insert_ne by done.
    split; [done|]. split; [done|].
    apply unreferenced_insert.
    + apply unreferenced_insert; [done|]. intros k'. by rewrite lookup_empty.
    + intros k'. destruct (decide (k = k')) as [->|Hk].
      * rewrite lookup_insert_eq. congruence.
      * rewrite lookup_insert_ne by done. by apply (Hu l').
Qed.

Lemma mutate_all_keeps env ms : ∀ w l p,
  heap (st w) !! l = Some p → cncserver_pen (st w) ≠ l →
  unreferenced l (heap (st w)) →
  heap (st (mutate_all env ms w)) !! l = Some p ∧
  cncserver_pen (st (mutate_all env ms w)) ≠ l.
Proof.
  induction ms as [|m ms IH]; intros w l p Hl Hp Hu; [done|].
  rewrite mutate_all_cons.
  destruct (mutate_keeps env m w l p Hl Hp Hu) as (Hl' & Hp' & Hu').
  by apply IH.
Qed.

(** In a closed heap no field refers to an address that holds no
    object. *)
Lemma closed_unreferenced h l : closed h → l ∉ dom h → unreferenced l h.
Proof.
  intros Hc Hl l0 o k Ho Hk.
  pose proof (Hc l0 o Ho k (HRef l) Hk) as Hin. done.
Qed.

(** An object without objects in its fields reads the same in every
    heap. *)
Lemma content_flat h l o :
  h !! l = Some o → flat o →
  content h l
  = VObj ((λ kv, (kv.1,
                  match kv.2 with
                  | HPrim p => VPrim p
                  | HRef _ => VPrim PNull
                  end)) <$> map_to_list o).
Proof.
  intros Ho Hflat. unfold content.
  destruct (size h) as [|fuel] eqn:Hsize.
  { apply map_size_empty_inv in Hsize. by rewrite Hsize, lookup_empty in Ho. }
  cbn [view]. rewrite Ho. f_equal. apply list_fmap_ext.
  intros i [k x] Hi. simpl.
  apply list_elem_of_lookup_2, elem_of_map_to_list in Hi.
  specialize (Hflat k x Hi). simpl in Hflat. by destruct x, fuel.
Qed.

Lemma changes_enqueue env s a s' :
  changes env s a s' → keeps_items a = true →
  (data s' = data s ∧ dataSet s' = dataSet s)
  ∨ ∃ h it, data s' = h :: data s ∧ dataSet s' = <[h:=it]> (dataSet s).
Proof.
  intros Hc Hk. destruct Hc; try discriminate; simpl;
    try (left; done); right; eexists _, _; done.
Qed.

Lemma changes_dequeue env s s' :
  changes env s ARemoveItem s' →
  data s' = removelast (data s) ∧
  (dataSet s' = dataSet s
   ∨ ∃ h, last (data s) = Some h ∧ dataSet s' = delete h (dataSet s)).
Proof.
  intros Hc. inversion Hc; subst; simpl; (split; [done|]); try (by left).
  right. exists h. split; [|done]. by apply truthy_last_Some.
Qed.

(** While nothing is dequeued, the id [h] stays where it is in [data], and
    its entry is [x] unless the id was enqueued again. *)
Lemma producers_keep env acts : ∀ w h x d0,
  Forall (λ a, keeps_items a = true) acts →
  (∃ news, data (st w) = news ++ h :: d0 ∧
           (h ∈ news ∨ dataSet (st w) !! h = Some x)) →
  ∃ news, data (st (perform_all env acts w)) = news ++ h :: d0 ∧
          (h ∈ news ∨ dataSet (st (perform_all env acts w)) !! h = Some x).
Proof.
  induction acts as [|a acts IH]; intros w h x d0 Hk Hinv; [done|].
  apply Forall_cons in Hk as [Ha Hk]. rewrite perform_all_cons.
  apply IH; [done|].
  destruct Hinv as (news & Hd & Hx).
  destruct (changes_enqueue env _ a _ (perform_changes env a w) Ha)
    as [[Hd' Hs']|(h' & it & Hd' & Hs')].
  - exists news. by rewrite Hd', Hs'.
  - exists (h' :: news). rewrite Hd', Hd, Hs'. split; [done|].
    destruct Hx as [Hx|Hx]; [left; by right|].
    destruct (decide (h' = h)) as [->|Hne]; [left; by left|].
    right. by rewrite lookup_insert_ne.
Qed.

(** As many dequeues as there are older ids bring [h] to the old end. *)
Lemma removes_reach env olds : ∀ w news (h : string) (x : item),
  data (st w) = news ++ h :: olds →
  NoDup (data (st w)) →
  dataSet (st w) !! h = Some x →
  let w' := perform_all env (replicate (length olds) ARemoveItem) w in
  data (st w') = news ++ [h] ∧ dataSet (st w') !! h = Some x.
Proof.
  induction olds as [|ho olds IH] using rev_ind; intros w news h x Hd Hnd Hx;
    [done|].
  rewrite length_app, Nat.add_comm. cbn [length Nat.add replicate].
  rewrite perform_all_cons.
  pose proof (changes_dequeue env _ _ (perform_changes env ARemoveItem w))
    as [Hd' Hs'].
  assert (Hsplit : data (st w) = (news ++ h :: olds) ++ [ho]).
  { rewrite Hd, <- app_assoc. done. }
  rewrite Hsplit, removelast_last in Hd'.
  apply IH; [done| |].
  - rewrite Hd'. rewrite Hsplit in Hnd. by apply NoDup_app in Hnd as [? _].
  - destruct Hs' as [Hs'|(h' & Hl & Hs')]; rewrite Hs'; [done|].
    rewrite Hsplit, last_snoc in Hl. injection Hl as <-.
    rewrite lookup_delete_ne; [done|]. intros <-.
    rewrite Hsplit in Hnd. apply NoDup_app in Hnd as (_ & Hnd & _).
    apply (Hnd ho); [|by apply list_elem_of_singleton].
    apply elem_of_app. right. by left.
Qed.

Lemma item_hash_heap env s s' it :
  heap s = heap s' → item_hash env s it = item_hash env s' it.
Proof. unfold item_hash. by intros ->. Qed.

(** After the enqueues, [data] holds the ids newest first and each id has
    its item, provided the ids differ. *)
Lemma enqueue_all_lookup env its : ∀ w w1,
  enqueue_all env its w = Ret tt w1 →
  NoDup (item_hash env (st w) <$> its) →
  data (st w1) = reverse (item_hash env (st w) <$> its) ++ data (st w) ∧
  (∀ it, it ∈ its →
         dataSet (st w1) !! item_hash env (st w) it = Some it ∧
         is_null (command it) = false) ∧
  (∀ h, h ∉ item_hash env (st w) <$> its →
        dataSet (st w1) !! h = dataSet (st w) !! h).
Proof.
  induction its as [|it its IH]; intros w w1 He Hnd.
  - injection He as <-. simpl. split; [done|].
    split; [|done]. intros it Hin. by apply elem_of_nil in Hin.
  - simpl in He. unfold mbind, M_bind, bind in He.
    destruct (addItem env it w) as [[] w0|] eqn:Ha; [|discriminate].
    apply addItem_returns in Ha as [Hn Hs].
    assert (Hhash : ∀ i, item_hash env (st w0) i = item_hash env (st w) i).
    { intros i. apply item_hash_heap. by rewrite Hs. }
    assert (Heq : item_hash env (st w0) <$> its
                  = item_hash env (st w) <$> its).
    { apply list_fmap_ext. intros ???. apply Hhash. }
    rewrite fmap_cons in Hnd. apply NoDup_cons in Hnd as [Hnotin Hnd].
    destruct (IH w0 w1 He) as (Hdata & Hin & Hout); [by rewrite Heq|].
    rewrite Heq in *.
    split.
    { rewrite Hdata, Hs. simpl. rewrite reverse_cons, <- app_assoc. done. }
    split.
    + intros i [->|Hi]%elem_of_cons.
      * split; [|done]. rewrite Hout by done. rewrite Hs. simpl.
        apply lookup_insert_eq.
      * rewrite <- Hhash. by apply Hin.
    + intros h [Hne Hnotin']%not_elem_of_cons. rewrite Hout by done.
      rewrite Hs. simpl. by apply lookup_insert_ne.
Qed.

(** Dequeues hand the items back oldest first when each id in [data] is
    truthy, occurs once and has its item. *)
Lemma removeItems_fifo (pairs : list (string * item)) : ∀ w,
  data (st w) = reverse pairs.*1 →
  NoDup pairs.*1 →
  Forall (λ p, p.1 ≠ EmptyString ∧ dataSet (st w) !! p.1 = Some p.2 ∧
               is_null (command p.2) = false) pairs →
  ∃ w', removeItems (length pairs) w = Ret (Some <$> pairs.*2) w'.
Proof.
  induction pairs as [|[h it] pairs IH]; intros w Hd Hnd Hall.
  - eexists. reflexivity.
  - simpl in *. rewrite reverse_cons in Hd.
    apply NoDup_cons in Hnd as [Hnotin Hnd].
    apply Forall_cons in Hall as [(Hne & Hit & Hnn) Hall]. simpl in *.
    assert (Hlast : truthy (last (data (st w))) = Some h).
    { rewrite Hd, last_snoc. by apply truthy_Some. }
    destruct (removeItem_cases w)
      as [[Ht _]|[(h' & Ht & Hit' & _)|(h' & it' & Ht & Hit' & He)]];
      rewrite Hlast in Ht; try discriminate.
    { injection Ht as <-. congruence. }
    injection Ht as <-. rewrite Hit in Hit'. injection Hit' as <-.
    cbv zeta in He. destruct He as [[_ [cs He]]|[Hn' _]]; [|congruence].
    unfold mbind, M_bind, bind. rewrite He.
    match goal with
    | |- context [removeItems _ ?w0] => destruct (IH w0) as [w' Hw']
    end.
    + simpl. rewrite Hd. by rewrite removelast_last.
    + done.
    + rewrite Forall_forall in Hall |- *. intros p Hp.
      destruct (Hall p Hp) as (Hp1 & Hp2 & Hp3).
      split; [done|]. split; [|done]. simpl.
      rewrite lookup_delete_ne; [done|]. intros ->. apply Hnotin.
      apply list_elem_of_fmap. by exists p.
    + rewrite Hw'. eexists. reflexivity.
Qed.

Lemma added_consistent env s it :
  consistent s → distinct_ids (added env s it) → consistent (added env s it).
Proof.
  intros [_ Hdom] Hdist. split; [done|].
  simpl. by rewrite dom_insert_L, Hdom.
Qed.

(** In a consistent store the id at the old end has its entry. *)
Lemma consistent_last s h :
  consistent s → last (data s) = Some h →
  h ≠ EmptyString ∧ ∃ it, dataSet s !! h = Some it.
Proof.
  intros [[_ Hne] Hdom] Hl. apply last_Some_elem_of in Hl.
  split; [by intros ->|].
  apply elem_of_dom. rewrite <- Hdom. by apply elem_of_list_to_set.
Qed.

Lemma consistent_truthy s :
  consistent s → truthy (last (data s)) = None → data s = [].
Proof.
  intros Hc Ht. destruct (last (data s)) as [h|] eqn:Hl.
  - destruct (consistent_last s h Hc Hl) as [Hne _]. simpl in Ht.
    by destruct (String.eqb_spec h EmptyString).
  - by apply last_None.
Qed.

(** Taking the id at the old end and its entry away keeps the store
    consistent. *)
Lemma removed_consistent s h it :
  consistent s → last (data s) = Some h →
  consistent (set_dataSet (delete h) (confirmed s it)).
Proof.
  intros [[Hnd Hne] Hdom] Hl.
  pose proof (removelast_snoc _ _ Hl) as Hsplit.
  assert (Hnd' : NoDup (removelast (data s)) ∧ h ∉ removelast (data s)).
  { rewrite Hsplit in Hnd. apply NoDup_app in Hnd as (? & Hx & _).
    split; [done|]. intros Hin. apply (Hx h Hin).
    by apply list_elem_of_singleton. }
  destruct Hnd' as [Hnd' Hh].
  split; [split|]; simpl.
  - done.
  - intros Hin. apply Hne. rewrite Hsplit. apply elem_of_app. by left.
  - rewrite dom_delete_L, <- Hdom. rewrite Hsplit at 2.
    rewrite list_to_set_app_L. simpl.
    apply set_eq. intros y. rewrite elem_of_difference, elem_of_union,
      !elem_of_list_to_set, elem_of_union, elem_of_singleton,
      elem_of_empty.
    split; [intros Hy|intros [[Hy|[Hy|[]]] Hy']]; try done.
    split; [by left|]. by intros ->.
Qed.

(** A dequeue that returns keeps the store consistent. *)
Lemma removeItem_consistent w r w' :
  consistent (st w) → removeItem w = Ret r w' → consistent (st w').
Proof.
  intros Hc Hrem.
  destruct (removeItem_cases w)
    as [[Ht He]|[(h & Ht & Hit & He)|(h & it & Ht & Hit & He)]].
  - rewrite He in Hrem. injection Hrem as _ <-. simpl.
    pose proof (consistent_truthy _ Hc Ht) as Hd.
    destruct Hc as [[Hnd Hne] Hdom].
    unfold consistent, distinct_ids, popped. simpl.
    rewrite Hd in *. done.
  - exfalso. apply truthy_last_Some in Ht as [Hl _].
    destruct (consistent_last _ h Hc Hl) as [_ [it Hit']]. congruence.
  - cbv zeta in He. destruct He as [[_ [cs He]]|[_ He]];
      rewrite He in Hrem; [|discriminate].
    injection Hrem as _ <-. simpl.
    apply truthy_last_Some in Ht as [Hl _]. by apply removed_consistent.
Qed.

Lemma good_call_preserves env a w :
  consistent (st w) → good_call env a w →
  consistent (st (perform env a w)).
Proof.
  intros Hc Hg.
  destruct a as [c d t|it| | | | |b|k v]; cbn [perform].
  - destruct Hg as ([] & w' & Hrun & Hdist); rewrite Hrun; simpl.
    + destruct (run_returns_true _ _ _ _ _ _ Hrun) as (cv & Hn & Hs).
      rewrite Hs in *. by apply added_consistent.
    + by rewrite (run_returns_false _ _ _ _ _ _ Hrun).
  - destruct Hg as (w' & Hadd & Hdist). rewrite Hadd. simpl.
    apply addItem_returns in Hadd as [Hn Hs].
    rewrite Hs in *. by apply (added_consistent env (st w) it).
  - destruct Hg as (r & w' & Hrem). rewrite Hrem. simpl.
    by apply (removeItem_consistent w r w').
  - rewrite clear_eq. simpl. split; [split|]; simpl.
    + constructor.
    + apply not_elem_of_nil.
    + by rewrite dom_empty_L.
  - rewrite pause_eq. done.
  - rewrite resume_eq. done.
  - rewrite toggle_eq.
    destruct (b && negb (paused (st w))); [by rewrite pause_eq|].
    destruct (negb b && paused (st w)); [by rewrite resume_eq|done].
  - unfold pen_assign. unfold_m. simpl.
    by destruct (heap (st w) !! cncserver_pen (st w)).
Qed.

Lemma good_calls_preserve env acts : ∀ w,
  consistent (st w) → good_calls env acts w →
  consistent (st (perform_all env acts w)).
Proof.
  induction acts as [|a acts IH]; intros w Hc Hg; [done|].
  destruct Hg as [Ha Hg]. rewrite perform_all_cons.
  apply IH; [|done]. by apply good_call_preserves.
Qed.

(** ** Numbers, printed and read *)

(** *** Digits *)

Lemma digit_of_value m : (m < 10)%N → digit_value (digit_of m) = m.
Proof.
  intros Hm. destruct m as [|p]; [done|].
  do 4 (destruct p as [p|p|]; try done; try lia).
Qed.

Lemma digit_value_lt d : (digit_value d < 10)%N.
Proof. destruct d; simpl; lia. Qed.

Lemma char_value_digit d : char_value (digit_char d) = Some (digit_value d).
Proof. by destruct d. Qed.

Lemma digits_string_app ds ds' :
  digits_string (ds ++ ds') = digits_string ds +:+ digits_string ds'.
Proof. induction ds as [|d ds IH]; simpl; [done|]. by rewrite IH. Qed.

(** Reading the digits a string starts with gives back the digits that were
    printed. *)
Lemma leading_digits ds rest :
  leading 10 (digits_string ds +:+ rest)
  = (digit_value <$> ds) ++ leading 10 rest.
Proof.
  induction ds as [|d ds IH]; [done|].
  change (digits_string (d :: ds) +:+ rest)
    with (String (digit_char d) (digits_string ds +:+ rest)).
  cbn [leading]. rewrite char_value_digit.
  pose proof (digit_value_lt d) as Hd. apply N.ltb_lt in Hd. rewrite Hd.
  by rewrite IH.
Qed.

Lemma digits_fuel_value fuel : ∀ n acc,
  (n < 2 ^ N.of_nat fuel)%N →
  ∃ k, ∀ a,
    foldl (λ a v, a * 10 + v)%N a (digit_value <$> digits_fuel fuel n acc)
    = foldl (λ a v, a * 10 + v)%N (a * 10 ^ k + n)%N (digit_value <$> acc).
Proof.
  induction fuel as [|fuel IH]; intros n acc Hn.
  - exists 0%N. intros a. simpl in *. replace n with 0%N by lia.
    f_equal. lia.
  - cbn [digits_fuel]. destruct (N.ltb_spec n 10) as [Hlt|Hge].
    + exists 1%N. intros a. simpl.
      rewrite digit_of_value by (apply N.mod_lt; lia).
      rewrite N.mod_small by done. f_equal.
    + destruct (IH (n / 10)%N (digit_of (n mod 10) :: acc)) as [k Hk].
      { rewrite Nat2N.inj_succ, N.pow_succ_r' in Hn.
        apply N.Div0.div_lt_upper_bound. lia. }
      exists (k + 1)%N. intros a. rewrite Hk. simpl.
      rewrite digit_of_value by (apply N.mod_lt; lia).
      f_equal. rewrite N.pow_add_r, N.pow_1_r.
      pose proof (N.div_mod n 10). lia.
Qed.

Lemma digits_enough n : (n < 2 ^ N.of_nat (S (N.to_nat (N.log2 n))))%N.
Proof.
  rewrite Nat2N.inj_succ, N2Nat.id.
  destruct n as [|p]; [done|]. apply N.log2_spec. lia.
Qed.

Lemma digits_value n : value (digit_value <$> digits n) = n.
Proof.
  unfold value, digits.
  destruct (digits_fuel_value _ n [] (digits_enough n)) as [k Hk].
  rewrite Hk. simpl. lia.
Qed.

Lemma digits_fuel_head fuel : ∀ n acc,
  (0 < n)%N → (n < 2 ^ N.of_nat fuel)%N →
  ∃ d rest, digits_fuel fuel n acc = d :: rest ∧ d ≠ d0.
Proof.
  induction fuel as [|fuel IH]; intros n acc Hpos Hn.
  - simpl in Hn. lia.
  - cbn [digits_fuel]. destruct (N.ltb_spec n 10) as [Hlt|Hge].
    + eexists _, _. split; [reflexivity|].
      rewrite N.mod_small by done.
      destruct n as [|p]; [lia|].
      do 4 (destruct p as [p|p|]; try done; try lia).
    + apply IH.
      * apply N.div_str_pos. lia.
      * rewrite Nat2N.inj_succ, N.pow_succ_r' in Hn.
        apply N.Div0.div_lt_upper_bound. lia.
Qed.

Lemma digits_head n :
  (0 < n)%N → ∃ d rest, digits n = d :: rest ∧ d ≠ d0.
Proof. intros Hn. apply digits_fuel_head; [done|apply digits_enough]. Qed.

Lemma digits_zero : digits 0 = [d0].
Proof. reflexivity. Qed.

(** *** Zeros *)

Lemma drop_zeros_head ds :
  drop_zeros ds = [] ∨ ∃ d rest, drop_zeros ds = d :: rest ∧ d ≠ d0.
Proof.
  induction ds as [|d ds IH]; [by left|].
  destruct d; simpl; try (right; eexists _, _; split; [reflexivity|done]).
  exact IH.
Qed.

Lemma drop_zeros_snoc ds d :
  d ≠ d0 → ∃ ds', drop_zeros (ds ++ [d]) = ds' ++ [d].
Proof.
  intros Hd. induction ds as [|x ds IH].
  - exists []. by destruct d.
  - destruct x; simpl; try (by eexists (_ :: ds)). exact IH.
Qed.

Lemma drop_zeros_all ds :
  drop_zeros ds = [] ↔
  forallb (λ d, match d with d0 => true | _ => false end) ds = true.
Proof.
  induction ds as [|d ds IH]; [done|]. destruct d; simpl; try done.
Qed.

Lemma forallb_reverse {A} (f : A → bool) l :
  forallb f (reverse l) = forallb f l.
Proof.
  induction l as [|x l IH]; [done|].
  rewrite reverse_cons, forallb_app, IH. simpl. by destruct (f x), (forallb f l).
Qed.

Lemma strip_zeros_nil ds :
  strip_zeros ds = [] ↔
  forallb (λ d, match d with d0 => true | _ => false end) ds = true.
Proof.
  unfold strip_zeros. rewrite <- (forallb_reverse _ ds), <- drop_zeros_all.
  split; [|by intros ->].
  intros H. apply (f_equal reverse) in H. by rewrite reverse_involutive in H.
Qed.

(** What is left after the zeros at the end are gone ends in a digit that
    is not zero, so it starts with one after the zeros in front are gone
    too. *)
Lemma strip_zeros_last ds :
  strip_zeros ds = [] ∨ ∃ ds' d, strip_zeros ds = ds' ++ [d] ∧ d ≠ d0.
Proof.
  unfold strip_zeros.
  destruct (drop_zeros_head (reverse ds)) as [->|(d & rest & -> & Hd)];
    [by left|].
  right. exists (reverse rest), d. by rewrite reverse_cons.
Qed.

Lemma drop_strip_head ds :
  strip_zeros ds ≠ [] →
  ∃ d rest, drop_zeros (strip_zeros ds) = d :: rest ∧ d ≠ d0.
Proof.
  intros Hne.
  destruct (strip_zeros_last ds) as [?|(ds' & d & -> & Hd)]; [done|].
  destruct (drop_zeros_head (ds' ++ [d])) as [H|H]; [|done].
  destruct (drop_zeros_snoc ds' d Hd) as [x Hx]. rewrite Hx in H.
  by destruct x.
Qed.

Lemma strip_zeros_head d ds :
  d ≠ d0 → ∃ rest, strip_zeros (d :: ds) = d :: rest.
Proof.
  intros Hd. unfold strip_zeros. rewrite reverse_cons.
  destruct (drop_zeros_snoc (reverse ds) d Hd) as [ds' ->].
  exists (reverse ds'). by rewrite reverse_app.
Qed.

(** *** The nearest double *)

Lemma to_double_small n : (n < 2 ^ 53)%N → to_double n = Some n.
Proof.
  intros Hn. unfold to_double. apply N.ltb_lt in Hn. by rewrite Hn.
Qed.

Lemma to_double_digit d : to_double (digit_value d) = Some (digit_value d).
Proof. apply to_double_small. destruct d; simpl; lia. Qed.

Lemma round53_pos n : (0 < n)%N → (0 < round53 n)%N.
Proof.
  intros Hn. unfold round53.
  destruct (N.leb_spec (N.size n) 53) as [|Hbits]; [done|].
  set (shift := (N.size n - 53)%N).
  assert (Hq : (0 < N.shiftr n shift)%N).
  { rewrite N.shiftr_div_pow2. apply N.div_str_pos. split; [lia|].
    assert (Hs : N.size n = N.succ (N.log2 n)) by (apply N.size_log2; lia).
    destruct (N.log2_spec n Hn) as [Hlo _].
    eapply N.le_trans; [|exact Hlo].
    apply N.pow_le_mono_r; [done|]. unfold shift. lia. }
  rewrite N.shiftl_mul_pow2.
  apply N.mul_pos_pos; [|apply N.neq_0_lt_0, N.pow_nonzero; lia].
  destruct (_ || _); lia.
Qed.

Lemma shortest_pos j : ∀ v, (0 < v)%N → (0 < shortest j v)%N.
Proof.
  induction j as [|j IH]; intros v Hv; cbn [shortest];
    set (p := (10 ^ _)%N);
    assert (Hp : (0 < p)%N)
      by (apply N.neq_0_lt_0, N.pow_nonzero; lia);
    destruct (N.ltb_spec 0 (v - v mod p)); simpl;
    repeat match goal with
           | |- context [if ?b then _ else _] => destruct b
           end; try lia; auto.
Qed.

Lemma to_double_pos n m :
  to_double n = Some m → (1 ≤ n)%N → (1 ≤ m)%N.
Proof.
  unfold to_double. intros H Hn.
  destruct (n <? 2 ^ 53)%N; [by injection H as <-|].
  destruct (n <? 2 ^ 1024 - 2 ^ 970)%N; [|done].
  injection H as <-.
  pose proof (shortest_pos (N.to_nat (N.size n)) (round53 n)
                (round53_pos n ltac:(lia))). lia.
Qed.

Lemma to_double_zero : to_double 0 = Some 0%N.
Proof. reflexivity. Qed.

Lemma to_double_finite n :
  (n < 2 ^ 1024 - 2 ^ 970)%N → ∃ m, to_double n = Some m.
Proof.
  intros Hn. unfold to_double. apply N.ltb_lt in Hn. rewrite Hn.
  destruct (n <? 2 ^ 53)%N; eexists; reflexivity.
Qed.

Lemma positional_is_finite n :
  (n < 10 ^ 21)%N → (n < 2 ^ 1024 - 2 ^ 970)%N.
Proof.
  intros Hn. eapply N.lt_trans; [exact Hn|]. by apply N.ltb_lt.
Qed.

(** *** [parseInt] of what [toString] prints *)

Lemma leading_stops rest : stops rest → leading 10 rest = [].
Proof. by intros [->|[[r ->]|[r ->]]]. Qed.

Lemma trim_start_digit fuel d r :
  trim_start fuel (String (digit_char d) r) = String (digit_char d) r.
Proof. destruct fuel; [done|]. by destruct d. Qed.

Lemma trim_start_minus fuel r :
  trim_start fuel (String "-" r) = String "-" r.
Proof. by destruct fuel. Qed.

Lemma split_sign_digit d r :
  split_sign (String (digit_char d) r) = (false, String (digit_char d) r).
Proof. by destruct d. Qed.

Lemma split_radix_digits d ds rest :
  stops rest →
  split_radix (digits_string (d :: ds) +:+ rest)
  = (10%N, digits_string (d :: ds) +:+ rest).
Proof.
  intros Hrest. destruct d; try reflexivity.
  destruct ds as [|d' ds].
  - by destruct Hrest as [->|[[r ->]|[r ->]]].
  - by destruct d'.
Qed.

Lemma parse_int_digits negative d ds rest :
  stops rest →
  parse_int (sign_text negative +:+ digits_string (d :: ds) +:+ rest)
  = match to_double (value (digit_value <$> d :: ds)) with
    | Some n => Finite negative n []
    | None => Infinity negative
    end.
Proof.
  intros Hrest. unfold parse_int.
  assert (Hsign :
    split_sign (trim_start
                  (String.length
                     (sign_text negative +:+ digits_string (d :: ds) +:+ rest))
                  (sign_text negative +:+ digits_string (d :: ds) +:+ rest))
    = (negative, digits_string (d :: ds) +:+ rest)).
  { destruct negative.
    - change (sign_text true +:+ digits_string (d :: ds) +:+ rest)
        with (String "-" (digits_string (d :: ds) +:+ rest)).
      by rewrite trim_start_minus.
    - change (sign_text false +:+ digits_string (d :: ds) +:+ rest)
        with (digits_string (d :: ds) +:+ rest).
      change (digits_string (d :: ds) +:+ rest)
        with (String (digit_char d) (digits_string ds +:+ rest)).
      by rewrite trim_start_digit, split_sign_digit. }
  rewrite Hsign, split_radix_digits by done.
  rewrite leading_digits, leading_stops, app_nil_r by done.
  destruct (digit_value <$> d :: ds) eqn:E; [done|]. by rewrite <- E.
Qed.

Lemma append_empty_r (s : string) : s +:+ EmptyString = s.
Proof.
  induction s as [|c s IH]; [done|].
  change (String c (s +:+ EmptyString) = String c s). by rewrite IH.
Qed.

Lemma digits_cons n : ∃ d ds, digits n = d :: ds.
Proof.
  destruct n as [|p]; [by eexists _, _|].
  destruct (digits_head (Npos p)) as (d & ds & -> & _); [lia|].
  by eexists _, _.
Qed.

(** [parseInt] of an integer printed digit by digit is the nearest double
    of that integer. *)
Lemma parse_int_whole negative n rest :
  stops rest →
  parse_int (sign_text negative +:+ digits_string (digits n) +:+ rest)
  = match to_double n with
    | Some m => Finite negative m []
    | None => Infinity negative
    end.
Proof.
  intros Hrest. destruct (digits_cons n) as (d & ds & E). rewrite E.
  rewrite parse_int_digits by done. by rewrite <- E, digits_value.
Qed.

(** [parseInt] of a number printed with an exponent is its first digit. *)
Lemma parse_int_scientific negative d ds e :
  parse_int (sign_text negative +:+ scientific (d :: ds) e)
  = Finite negative (digit_value d) [].
Proof.
  unfold scientific.
  set (tail := match ds with [] => EmptyString | _ => "." +:+ digits_string ds end).
  set (ex := "e" +:+ (if e <? 0 then "-" else "+")
             +:+ digits_string (digits (Z.abs_N e))).
  change (String (digit_char d) tail +:+ ex)
    with (digits_string [d] +:+ (tail +:+ ex)).
  rewrite parse_int_digits.
  - change (value (digit_value <$> [d])) with (digit_value d).
    by rewrite to_double_digit.
  - unfold tail, ex. destruct ds; [right; right|right; left]; by eexists.
Qed.

Lemma digit_value_pos d : d ≠ d0 → (1 ≤ digit_value d)%N.
Proof. destruct d; simpl; (done || lia). Qed.

(** *** The duration that [run] stores *)

Lemma clamp_of_parsed negative m :
  (if le_zero (Math_abs (Finite negative m [])) then of_Z 1
   else Math_abs (Finite negative m []))
  = of_N (N.max 1 m).
Proof.
  unfold le_zero, Math_abs, is_zero, of_N. simpl. rewrite andb_true_r.
  destruct (N.eqb_spec m 0) as [->|Hm]; [done|].
  f_equal. lia.
Qed.

Lemma clamp_duration_number negative whole fraction :
  is_zero whole fraction = false →
  clamp_duration (Dnum (Finite negative whole fraction))
  = let y := Math_abs (parse_int (number_to_string
                                    (Finite negative whole fraction))) in
    if le_zero y then of_Z 1 else y.
Proof. intros Hz. unfold clamp_duration, js_not, parseInt. by rewrite Hz. Qed.

Lemma clamp_duration_zero negative whole fraction :
  is_zero whole fraction = true →
  clamp_duration (Dnum (Finite negative whole fraction)) = of_N 1.
Proof. intros Hz. unfold clamp_duration, js_not. by rewrite Hz. Qed.

Lemma is_zero_whole whole fraction :
  is_zero whole fraction = true → whole = 0%N.
Proof. unfold is_zero. intros [H _]%andb_true_iff. by apply N.eqb_eq. Qed.

Lemma is_zero_strip whole fraction :
  is_zero whole fraction = false → strip_zeros fraction = [] → whole ≠ 0%N.
Proof.
  unfold is_zero. intros Hz Hs ->. apply strip_zeros_nil in Hs.
  by rewrite Hs in Hz.
Qed.

(** For a duration in range the code stores what arithmetic says. *)
Lemma clamp_in_range t :
  in_range t → clamp_duration t = of_N (clamp_as_coded t).
Proof.
  destruct t as [| |b|[negative whole fraction| |]|s]; try done.
  intros Hr. cbn [clamp_as_coded].
  destruct (is_zero whole fraction) eqn:Hz.
  { rewrite clamp_duration_zero by done.
    by rewrite (is_zero_whole _ _ Hz). }
  destruct Hr as [Hr|(Hlt & Hdouble & Htiny)]; [congruence|].
  rewrite clamp_duration_number by done. cbv zeta.
  unfold number_to_string.
  destruct (strip_zeros fraction) as [|d f] eqn:Hs.
  - pose proof (is_zero_strip _ _ Hz Hs) as Hw.
    rewrite Hdouble. destruct whole as [|p]; [done|].
    apply N.ltb_lt in Hlt. rewrite Hlt.
    rewrite <- (append_empty_r (digits_string _)).
    rewrite parse_int_whole by by left. rewrite Hdouble.
    apply clamp_of_parsed.
  - unfold tiny in Htiny. rewrite Hs in Htiny. rewrite Htiny.
    apply N.ltb_lt in Hlt. rewrite Hlt.
    rewrite parse_int_whole by (right; left; by eexists).
    rewrite Hdouble. apply clamp_of_parsed.
Qed.

(** For a duration that is missing or a finite number the code stores an
    integer of at least 1. *)
Lemma clamp_finite t :
  finite_or_missing t →
  ∃ n, clamp_duration t = of_N n ∧ (1 ≤ n)%N.
Proof.
  destruct t as [| |b|[negative whole fraction| |]|s]; try done;
    try (by exists 1%N).
  intros Hfin. cbn [finite_or_missing] in Hfin.
  destruct (is_zero whole fraction) eqn:Hz.
  { exists 1%N. by rewrite clamp_duration_zero. }
  rewrite clamp_duration_number by done. cbv zeta.
  assert (Hdigit : ∀ d ds e, d ≠ d0 →
    ∃ n, (if le_zero (Math_abs (parse_int
                (sign_text negative +:+ scientific (d :: ds) e)))
          then of_Z 1
          else Math_abs (parse_int
                 (sign_text negative +:+ scientific (d :: ds) e)))
         = of_N n ∧ (1 ≤ n)%N).
  { intros d ds e Hd. rewrite parse_int_scientific, clamp_of_parsed.
    eexists. split; [done|]. lia. }
  assert (Hwhole : ∀ n rest, stops rest → (n < 10 ^ 21)%N →
    ∃ m, (if le_zero (Math_abs (parse_int
                (sign_text negative +:+ digits_string (digits n) +:+ rest)))
          then of_Z 1
          else Math_abs (parse_int
                 (sign_text negative +:+ digits_string (digits n) +:+ rest)))
         = of_N m ∧ (1 ≤ m)%N).
  { intros n rest Hrest Hn. rewrite parse_int_whole by done.
    destruct (to_double_finite n (positional_is_finite n Hn)) as [m ->].
    rewrite clamp_of_parsed. eexists. split; [done|]. lia. }
  unfold number_to_string.
  destruct (strip_zeros fraction) as [|d f] eqn:Hs.
  - pose proof (is_zero_strip _ _ Hz Hs) as Hw.
    destruct (to_double_finite whole Hfin) as [m Hm]. rewrite Hm.
    pose proof (to_double_pos whole m Hm ltac:(lia)) as Hpos.
    destruct m as [|q]; [lia|].
    destruct (N.ltb_spec (Npos q) (10 ^ 21)) as [Hlt|Hge].
    + rewrite <- (append_empty_r (digits_string _)).
      apply Hwhole; [by left|done].
    + destruct (digits_head (Npos q)) as (e & es & -> & He); [lia|].
      destruct (strip_zeros_head e es He) as [rest ->].
      by apply Hdigit.
  - destruct ((whole =? 0)%N && _) eqn:Htiny.
    + destruct (drop_strip_head fraction) as (e & es & He & Hne).
      { by rewrite Hs. }
      rewrite Hs in He. rewrite He. by apply Hdigit.
    + destruct (N.ltb_spec whole (10 ^ 21)) as [Hlt|Hge].
      * apply Hwhole; [right; left; by eexists|done].
      * destruct (digits_head whole) as (e & es & -> & He); [lia|].
        change ((e :: es) ++ d :: f) with (e :: (es ++ d :: f)).
        destruct (strip_zeros_head e (es ++ d :: f) He) as [rest ->].
        by apply Hdigit.
Qed.

(** Closes a decidable goal about concrete data by evaluation. *)
Ltac by_evaluation := apply (bool_decide_unpack _); vm_compute; exact I.

Lemma busy_world_consistent : consistent (st busy_world).
Proof.
  split; [split|]; [by_evaluation..|].
  vm_cast_no_check (eq_refl (dom (dataSet (st busy_world)))).
Qed.

Lemma initial_world_consistent : consistent (st initial_world).
Proof.
  split; [split|]; [by_evaluation..|].
  vm_cast_no_check (eq_refl (dom (dataSet (st initial_world)))).
Qed.

Lemma queued_world_consistent : consistent (st queued_world).
Proof.
  split; [split|]; [by_evaluation..|].
  vm_cast_no_check (eq_refl (dom (dataSet (st queued_world)))).
Qed.

Lemma busy_pen_is_object : pen_is_object (st busy_world).
Proof. by_evaluation. Qed.

(** * The claims of the specification *)

(** ** FIFO ordering *)

(** C1, as amended. For every sequence of items whose ids are pairwise
    distinct and not empty: when the buffer is empty and [addItem] returns
    for each item in turn, as many calls of [removeItem] return and handle
    the items in exactly the order in which they were enqueued. *)
Theorem fifo_for_distinct_ids env its w :
  NoDup (item_hash env (st w) <$> its) →
  Forall (λ it, item_hash env (st w) it ≠ EmptyString) its →
  fifo_order env its w.
Proof.
  intros Hnd Hne Hd w1 He.
  destruct (enqueue_all_lookup env its w w1 He Hnd) as (Hdata & Hin & _).
  rewrite Hd, app_nil_r in Hdata.
  set (pairs := (λ it, (item_hash env (st w) it, it)) <$> its).
  assert (H1 : pairs.*1 = item_hash env (st w) <$> its).
  { unfold pairs. rewrite <- list_fmap_compose. done. }
  assert (H2 : pairs.*2 = its).
  { unfold pairs. rewrite <- list_fmap_compose. apply list_fmap_id. }
  destruct (removeItems_fifo pairs w1) as [w2 Hw2].
  - by rewrite H1.
  - by rewrite H1.
  - unfold pairs. rewrite Forall_fmap, Forall_forall.
    intros it Hit. simpl. rewrite Forall_forall in Hne.
    destruct (Hin it Hit). auto.
  - exists w2. rewrite <- H2 at 2. rewrite <- Hw2. f_equal.
    unfold pairs. by rewrite length_fmap.
Qed.

Lemma fifo_for_distinct_ids_witness :
  ∃ w2,
    removeItems 2
      (final (enqueue_all reference_env [first_note; third_note]
                initial_world))
    = Ret [Some first_note; Some third_note] w2.
Proof.
  apply (fifo_for_distinct_ids reference_env [first_note; third_note]
           initial_world).
  - by_evaluation.
  - by_evaluation.
  - reflexivity.
  - vm_cast_no_check
      (eq_refl (enqueue_all reference_env [first_note; third_note]
                  initial_world)).
Defined.

(** Two items of the same content have the same id. The second
    [addItem] takes over the entry of the first, the first [removeItem]
    hands back the second item and deletes the entry, and the second
    [removeItem] finds no item and throws. *)
Lemma fifo_order_counterexample :
  ¬ fifo_order reference_env [first_note; second_note] initial_world.
Proof.
  intros H.
  assert (Hthrows :
    returned (removeItems 2
                (final (enqueue_all reference_env [first_note; second_note]
                          initial_world))) = None)
    by (vm_cast_no_check (eq_refl (@None (list (option item))))).
  destruct (H eq_refl
              (final (enqueue_all reference_env [first_note; second_note]
                        initial_world))) as [w2 Hw2].
  - vm_cast_no_check
      (eq_refl (enqueue_all reference_env [first_note; second_note]
                  initial_world)).
  - cbn [length] in Hw2. rewrite Hw2 in Hthrows. discriminate Hthrows.
Qed.

(** ** Confirmed-state correctness *)

(** C2. Let [run] enqueue an item [x] while [cncserver.pen] is an object.
    Whatever calls follow, a [removeItem] that handles [x] leaves in
    [cncserver.actualPen] exactly the content [cncserver.pen] had when [x]
    was enqueued, however far [cncserver.pen] has moved on since. And such
    a call exists: after calls that only enqueue or move the pen and leave
    distinct ids, and after as many dequeues as there were older items,
    [removeItem] handles [x]. *)
Theorem confirmed_state_is_snapshot env c d t w w1 :
  pen_is_object (st w) →
  run env c d t w = Ret true w1 →
  ∃ h x,
    head (data (st w1)) = Some h ∧
    dataSet (st w1) !! h = Some x ∧
    (∀ acts w3,
       removeItem (perform_all env acts w1) = Ret (Some x) w3 →
       deref (heap (st w3)) (cncserver_actualPen (st w3))
       = deref (heap (st w)) (cncserver_pen (st w))) ∧
    (proper_hash env →
     ∀ acts,
       Forall (λ a, keeps_items a = true) acts →
       NoDup (data (st (perform_all env acts w1))) →
       ∃ w3,
         removeItem
           (perform_all env
              (acts ++ replicate (length (data (st w))) ARemoveItem) w1)
         = Ret (Some x) w3).
Proof.
  intros Hobj Hrun.
  destruct (run_returns_true _ _ _ _ _ _ Hrun) as (cv & Hnn & Hs).
  set (l := fresh (dom (heap (st w)))) in *.
  set (x := Item cv (clamp_duration t) l) in *.
  set (s0 := copy_into (st w) (cncserver_pen (st w))) in *.
  set (h := item_hash env s0 x).
  set (p := deref (heap (st w)) (cncserver_pen (st w))).
  assert (Hd1 : data (st w1) = h :: data (st w)) by by rewrite Hs.
  assert (Hx1 : dataSet (st w1) !! h = Some x).
  { rewrite Hs. simpl. apply lookup_insert_eq. }
  assert (Hl1 : heap (st w1) !! l = Some p).
  { rewrite Hs. simpl. apply lookup_insert_eq. }
  assert (Hp1 : cncserver_pen (st w1) ≠ l).
  { rewrite Hs. simpl. apply not_eq_sym, fresh_ne, Hobj. }
  exists h, x. split; [by rewrite Hd1|]. split; [done|]. split.
  - intros acts w3 Hrem.
    destruct (perform_all_keeps env acts w1 l p Hl1 Hp1) as [Hl2 _].
    destruct (removeItem_cases (perform_all env acts w1))
      as [[_ He]|[(h' & _ & _ & [[_ He]|[_ He]])|(h' & it' & _ & _ & He)]];
      [rewrite He in Hrem; discriminate..|].
    cbv zeta in He. destruct He as [[_ [cs He]]|[_ He]];
      rewrite He in Hrem; [|discriminate].
    injection Hrem as -> <-. simpl.
    rewrite deref_insert_eq. unfold deref. by rewrite Hl2.
  - intros Hhash acts Hk Hnd.
    destruct (producers_keep env acts w1 h x (data (st w)) Hk)
      as (news & Hd2 & Hx2).
    { exists []. split; [done|]. by right. }
    destruct Hx2 as [Hin|Hx2].
    { exfalso. rewrite Hd2 in Hnd. apply NoDup_app in Hnd as (_ & Hnd & _).
      apply (Hnd h Hin). by left. }
    destruct (removes_reach env (data (st w)) _ news h x Hd2 Hnd Hx2)
      as [Hd3 Hx3].
    rewrite perform_all_app.
    set (w3 := perform_all env _ (perform_all env acts w1)) in *.
    assert (Ht : truthy (last (data (st w3))) = Some h).
    { rewrite Hd3, last_snoc. apply truthy_Some. by apply item_hash_proper. }
    destruct (removeItem_cases w3)
      as [[Ht' _]|[(h' & Ht' & Hit' & _)|(h' & it' & Ht' & Hit' & He)]];
      rewrite Ht in Ht'; try discriminate.
    { injection Ht' as <-. congruence. }
    injection Ht' as <-. rewrite Hx3 in Hit'. injection Hit' as <-.
    cbv zeta in He.
    destruct He as [[_ [cs He]]|[Hn' _]]; [|simpl in Hn'; congruence].
    eexists. exact He.
Qed.

Lemma confirmed_state_is_snapshot_witness :
  ∃ x w3,
    removeItem
      (perform_all reference_env (later_calls ++ [ARemoveItem])
         (final (run reference_env "height" (VObj [("z", VPrim (PNum 3))])
                   Dundefined busy_world)))
    = Ret (Some x) w3 ∧
    deref (heap (st w3)) (cncserver_actualPen (st w3))
    = deref (heap (st busy_world)) (cncserver_pen (st busy_world)).
Proof.
  destruct (confirmed_state_is_snapshot reference_env "height"
              (VObj [("z", VPrim (PNum 3))]) Dundefined busy_world
              (final (run reference_env "height"
                        (VObj [("z", VPrim (PNum 3))]) Dundefined busy_world)))
    as (h & x & _ & _ & Hsame & Hreach).
  - by_evaluation.
  - vm_cast_no_check
      (eq_refl (run reference_env "height" (VObj [("z", VPrim (PNum 3))])
                  Dundefined busy_world)).
  - destruct (Hreach reference_hash_proper later_calls) as [w3 Hw3].
    + repeat constructor.
    + by_evaluation.
    + exists x, w3. split; [exact Hw3|].
      exact (Hsame (later_calls ++ [ARemoveItem]) w3 Hw3).
Defined.

(** ** Duplicate ids *)

(** C3, as amended. [addItem] refuses nothing: for an item whose command
    is not [null] it returns, puts the id at the new end of [data] and
    makes the item the entry of that id in [dataSet], in place of an entry
    that was there. The correspondence between [data] and [dataSet] holds
    after every sequence of calls that starts from a consistent store and
    in which each enqueue and each dequeue returns and each enqueue leaves
    distinct ids. *)
Theorem addItem_overwrites_invariant_for_distinct_ids env :
  (∀ it w,
     is_null (command it) = false →
     ∃ w', addItem env it w = Ret tt w' ∧
           data (st w') = item_hash env (st w) it :: data (st w) ∧
           dataSet (st w')
           = <[item_hash env (st w) it := it]> (dataSet (st w))) ∧
  (∀ acts w,
     consistent (st w) →
     good_calls env acts w →
     consistent (st (perform_all env acts w))).
Proof.
  split.
  - intros it w Hn.
    destruct (addItem_cases env it w) as [[_ [r Ha]]|[Hn' _]]; [|congruence].
    eexists. split; [exact Ha|]. done.
  - intros acts w Hc Hg. by apply good_calls_preserve.
Qed.

Lemma addItem_overwrites_invariant_for_distinct_ids_witness :
  (∃ w', addItem reference_env first_note initial_world = Ret tt w' ∧
         data (st w')
         = item_hash reference_env initial_store first_note :: [] ∧
         dataSet (st w')
         = <[item_hash reference_env initial_store first_note := first_note]>
             ∅) ∧
  consistent (st (perform_all reference_env steady_calls queued_world)) ∧
  length (data (st (perform_all reference_env steady_calls queued_world)))
  = 2%nat.
Proof.
  destruct (addItem_overwrites_invariant_for_distinct_ids reference_env)
    as [Hadd Hinv].
  split; [|split].
  - apply (Hadd first_note initial_world). reflexivity.
  - apply Hinv; [apply queued_world_consistent|].
    cbn [steady_calls good_calls good_call]. split; [done|]. split.
    + exists (Some (Item hi 1 3%positive)),
        (final (removeItem (perform reference_env APause queued_world))).
      vm_cast_no_check
        (eq_refl (removeItem (perform reference_env APause queued_world))).
    + split; [|done].
      exists true,
        (final (run reference_env "message" hi (Dnum 2)
                  (perform reference_env ARemoveItem
                     (perform reference_env APause queued_world)))).
      split.
      * vm_cast_no_check
          (eq_refl (run reference_env "message" hi (Dnum 2)
                      (perform reference_env ARemoveItem
                         (perform reference_env APause queued_world)))).
      * split; by_evaluation.
  - vm_cast_no_check (eq_refl 2%nat).
Defined.

(** The second note has the id of the first: [addItem] returns all the
    same and the entry is now the second note; the id is then twice in
    [data]. And where the ids differ, a call that throws half way leaves
    [data] and [dataSet] apart: the item that [run] stores for a [null]
    payload makes [removeItem] throw after the id is gone from [data] and
    before the entry is gone from [dataSet]. *)
Lemma duplicate_rejected_counterexample :
  ¬ duplicate_rejected reference_env second_note
      (final (addItem reference_env first_note initial_world)) ∧
  ¬ always_consistent reference_env
      [AAddItem first_note; AAddItem second_note] initial_world ∧
  ¬ always_consistent reference_env null_calls initial_world.
Proof.
  split; [|split].
  - intros H. destruct H as [Hret _]; [by_evaluation|].
    assert (Hreturns :
      returned (addItem reference_env second_note
                  (final (addItem reference_env first_note initial_world)))
      = Some tt) by (vm_cast_no_check (eq_refl (Some tt))).
    rewrite Hret in Hreturns. discriminate Hreturns.
  - intros H. destruct (H initial_world_consistent) as [[Hnd _] _].
    revert Hnd. apply (proj1 (bool_decide_eq_false _)).
    vm_cast_no_check (eq_refl false).
  - intros H. destruct (H initial_world_consistent) as [_ Hdom].
    apply (f_equal size) in Hdom.
    assert (Hleft :
      size (list_to_set (C := gset string)
              (data (st (perform_all reference_env null_calls initial_world))))
      = 0%nat) by (vm_cast_no_check (eq_refl 0%nat)).
    assert (Hright :
      size (dom (dataSet
                   (st (perform_all reference_env null_calls initial_world))))
      = 1%nat) by (vm_cast_no_check (eq_refl 1%nat)).
    rewrite Hleft, Hright in Hdom. discriminate Hdom.
Qed.

(** ** Duration clamp *)

(** C4, as amended. Let [run] enqueue an item. If the duration is missing
    or zero, the stored duration is 1. If it is a number that JavaScript
    holds and prints digit by digit, from 10^-6 up to 10^21 in magnitude,
    the stored duration is the whole part of its magnitude, and 1 when
    that is 0: a negative duration is stored with its magnitude, not as
    1. For every duration that is missing or a finite number the stored
    duration is an integer of at least 1. *)
Theorem run_stores_clamped env c d t w w1 :
  run env c d t w = Ret true w1 →
  (in_range t → stored_duration w1 = Some (of_N (clamp_as_coded t))) ∧
  (finite_or_missing t →
   ∃ n, stored_duration w1 = Some (of_N n) ∧ (1 ≤ n)%N).
Proof.
  intros Hrun.
  destruct (run_returns_true _ _ _ _ _ _ Hrun) as (cv & _ & Hs).
  assert (Hstored : stored_duration w1 = Some (clamp_duration t)).
  { unfold stored_duration. rewrite Hs. simpl.
    by rewrite lookup_insert_eq. }
  rewrite Hstored. split.
  - intros Hr. by rewrite clamp_in_range.
  - intros Hf. destruct (clamp_finite t Hf) as (n & -> & Hn). by exists n.
Qed.

Lemma run_stores_clamped_witness :
  stored_duration
    (final (run reference_env "message" hi (Dnum (Finite true 2 [d7]))
              initial_world))
  = Some (of_N 2).
Proof.
  destruct (run_stores_clamped reference_env "message" hi
              (Dnum (Finite true 2 [d7])) initial_world
              (final (run reference_env "message" hi
                        (Dnum (Finite true 2 [d7])) initial_world)))
    as [Hin _].
  - vm_cast_no_check
      (eq_refl (run reference_env "message" hi (Dnum (Finite true 2 [d7]))
                  initial_world)).
  - apply Hin. right. repeat split; reflexivity.
Defined.

(** Refutes [duration_clamped] at a duration for which the code stores
    [actual]. *)
Ltac stores_otherwise t actual :=
  let H := fresh "H" in
  let Hst := fresh "Hst" in
  let Hact := fresh "Hact" in
  let Hn := fresh "Hn" in
  let Hcase := fresh "Hcase" in
  intros H;
  destruct (H (final (run reference_env "message" hi t initial_world)))
    as (? & Hst & ? & Hn & _ & Hcase);
  [vm_cast_no_check (eq_refl (run reference_env "message" hi t initial_world))
  |];
  assert (Hact :
    stored_duration (final (run reference_env "message" hi t initial_world))
    = Some actual) by (vm_cast_no_check (eq_refl (Some actual)));
  rewrite Hact in Hst; injection Hst as <-;
  first [discriminate Hn
        | injection Hn as <-; vm_compute in Hcase; discriminate Hcase].

(** A duration of -5 is stored as 5, not as 1. One of 0.5 is stored as 1,
    which is not its truncation. One of 10^21 is stored as 1, the first
    digit of [1e+21]. For [Infinity] and for a text without digits the
    stored duration is [NaN]. *)
Lemma duration_clamped_counterexample :
  ¬ duration_clamped reference_env "message" hi (Dnum (-5)) initial_world ∧
  ¬ duration_clamped reference_env "message" hi
      (Dnum (Finite false 0 [d5])) initial_world ∧
  ¬ duration_clamped reference_env "message" hi (Dnum (10 ^ 21))
      initial_world ∧
  ¬ duration_clamped reference_env "message" hi (Dnum (Infinity false))
      initial_world ∧
  ¬ duration_clamped reference_env "message" hi (Dstr "soon") initial_world.
Proof.
  split; [|split; [|split; [|split]]].
  - stores_otherwise (Dnum (-5)) (of_N 5).
  - stores_otherwise (Dnum (Finite false 0 [d5])) (of_N 1).
  - stores_otherwise (Dnum (10 ^ 21)) (of_N 1).
  - stores_otherwise (Dnum (Infinity false)) NaN.
  - stores_otherwise (Dstr "soon") NaN.
Qed.

(** ** Snapshot immutability *)

(** C5, as amended. Let [run] enqueue an item while [cncserver.pen] is an
    object, in a heap where every reference leads to an object. The pen
    object of the item is a new object, a copy one level deep: its fields
    hold the primitive values and the references to objects that the
    fields of [cncserver.pen] held at the enqueue. After any sequence of
    calls and of assignments, of primitive values or of new objects, to
    fields of [cncserver.pen] or of objects held in it, the fields of the
    snapshot hold what they held, and the snapshot is never the object
    [cncserver.pen] refers to. Where [cncserver.pen] held primitive values
    only, the snapshot with all it holds reads as it did when the enqueue
    returned, and as [cncserver.pen] did at the enqueue. *)
Theorem snapshot_immutable env c d t w w1 :
  pen_is_object (st w) →
  closed (heap (st w)) →
  run env c d t w = Ret true w1 →
  ∃ h x,
    data (st w1) = h :: data (st w) ∧
    dataSet (st w1) !! h = Some x ∧
    (pen x ∉ dom (heap (st w))) ∧
    (∀ ms,
       let w2 := mutate_all env ms w1 in
       deref (heap (st w2)) (pen x)
       = deref (heap (st w)) (cncserver_pen (st w)) ∧
       cncserver_pen (st w2) ≠ pen x ∧
       (flat (deref (heap (st w)) (cncserver_pen (st w))) →
        content (heap (st w2)) (pen x) = content (heap (st w1)) (pen x) ∧
        content (heap (st w2)) (pen x)
        = content (heap (st w)) (cncserver_pen (st w)))).
Proof.
  intros Hobj Hclosed Hrun.
  destruct (run_returns_true _ _ _ _ _ _ Hrun) as (cv & _ & Hs).
  eexists _, _. rewrite Hs. simpl.
  split; [reflexivity|]. split; [apply lookup_insert_eq|]. simpl.
  split; [apply is_fresh|].
  intros ms.
  destruct (mutate_all_keeps env ms w1 (fresh (dom (heap (st w))))
              (deref (heap (st w)) (cncserver_pen (st w)))) as [Hl Hp].
  - rewrite Hs. simpl. apply lookup_insert_eq.
  - rewrite Hs. simpl. apply not_eq_sym, fresh_ne, Hobj.
  - rewrite Hs. simpl.
    pose proof (closed_unreferenced _ _ Hclosed (is_fresh (dom (heap (st w)))))
      as Hu.
    apply unreferenced_insert; [done|].
    intros k. by apply unreferenced_deref.
  - split; [unfold deref at 1; by rewrite Hl|]. split; [done|].
    intros Hflat. apply elem_of_dom in Hobj as [o Ho].
    unfold deref in Hl, Hflat |- *. rewrite Ho in Hl, Hflat |- *.
    simpl in Hl, Hflat |- *.
    rewrite (content_flat _ _ o Hl), (content_flat _ _ o Ho) by done.
    split; [|done]. symmetry. apply content_flat; [|done].
    apply lookup_insert_eq.
Qed.

Lemma snapshot_immutable_witness :
  ∃ x,
    deref (heap (st (mutate_all reference_env later_mutations
                       (final (run reference_env "move" corner (Dnum 5)
                                 nested_world)))))
      (pen x)
    = tooled.
Proof.
  destruct (snapshot_immutable reference_env "move" corner (Dnum 5)
              nested_world
              (final (run reference_env "move" corner (Dnum 5) nested_world)))
    as (h & x & _ & _ & _ & Hkept).
  - by_evaluation.
  - by_evaluation.
  - vm_cast_no_check
      (eq_refl (run reference_env "move" corner (Dnum 5) nested_world)).
  - exists x. destruct (Hkept later_mutations) as [Hsame _].
    rewrite Hsame. vm_cast_no_check (eq_refl tooled).
Defined.

(** The snapshot is no deep copy: the object a field of [cncserver.pen]
    holds is held by the snapshot too, and an assignment to a field of that
    object after the enqueue changes what the snapshot reads. *)
Lemma deep_snapshot_counterexample :
  ¬ deep_snapshot reference_env "message" hi (Dnum 1)
      [Write ["tool"] "size" (PNum 2)] nested_world.
Proof.
  intros H.
  destruct (H (final (run reference_env "message" hi (Dnum 1) nested_world)))
    as (l & Hl & Hc).
  { vm_cast_no_check
      (eq_refl (run reference_env "message" hi (Dnum 1) nested_world)). }
  assert (Hat :
    stored_pen (final (run reference_env "message" hi (Dnum 1) nested_world))
    = Some 4%positive) by (vm_cast_no_check (eq_refl (Some 4%positive))).
  rewrite Hat in Hl. injection Hl as <-.
  vm_compute in Hc. discriminate Hc.
Qed.

(** ** Clear *)

(** C6. From every world [clear] returns; afterwards [data] and [dataSet]
    are empty, [cncserver.pen] has the content of [cncserver.actualPen],
    which is unchanged, and each of the notifications [clear] sends is
    sent when both [data] and [dataSet] are already empty. *)
Theorem clear_empties_and_resets (w : world) :
  ∃ w' sent_now,
    clear w = Ret tt w' ∧
    data (st w') = [] ∧ dataSet (st w') = ∅ ∧
    deref (heap (st w')) (cncserver_pen (st w'))
    = deref (heap (st w')) (cncserver_actualPen (st w')) ∧
    cncserver_actualPen (st w') = cncserver_actualPen (st w) ∧
    deref (heap (st w')) (cncserver_actualPen (st w'))
    = deref (heap (st w)) (cncserver_actualPen (st w)) ∧
    out w' = out w ++ sent_now ∧
    Forall (λ n, data (seen n) = [] ∧ dataSet (seen n) = ∅) sent_now.
Proof.
  eexists _, _. split; [apply clear_eq|]. simpl.
  rewrite deref_insert_eq, deref_copy_src.
  repeat split; try done. repeat constructor.
Qed.

(** ** Enqueue failure *)

(** C7, as amended. [run] returns false exactly when the command kind is
    none of the supported ones, or is ['wait'] on a device that declares
    no wait command. In those cases it returns false whatever [data] and
    [duration] are, without throwing, and the world is as it was: no
    store change, nothing sent, nothing logged. *)
Theorem run_refuses_exactly env c d t w :
  (returned (run env c d t w) = Some false ↔ refused env c) ∧
  (refused env c → run env c d t w = Ret false w).
Proof.
  destruct (run_cases env c d t w) as [[Hr He]|[Hr [He|[cv [_ He]]]]].
  - split; [|done]. by rewrite He.
  - split; [|done]. by rewrite He.
  - split; [|done]. rewrite He. split; [|done].
    unfold mbind, M_bind, bind.
    match goal with
    | |- context [addItem env ?it ?w1] =>
        destruct (addItem_cases env it w1) as [[_ [r Ha]]|[_ Ha]]
    end; by rewrite Ha.
Qed.

Lemma run_refuses_exactly_witness :
  run reference_env "dance" undefined (Dnum 7) busy_world
  = Ret false busy_world.
Proof.
  apply (run_refuses_exactly reference_env "dance" undefined (Dnum 7)
           busy_world).
  left. by_evaluation.
Defined.

(** ['wait'] is a supported kind, and [run] returns false for it on a
    device without a wait command. *)
Lemma fails_iff_unknown_counterexample :
  ¬ fails_iff_unknown no_wait_env "wait" undefined Dundefined initial_world.
Proof.
  intros [H _]. apply H; [vm_cast_no_check (eq_refl (Some false))|].
  apply supported_spec. tauto.
Qed.

(** ** The dequeue that finds no item *)

(** C8, where the code departs from the claim. After the same message was
    enqueued twice and dequeued once, its id is still in [data] and has no
    entry in [dataSet]. The next [removeItem] throws a TypeError, and the
    console holds no error line. *)
Theorem removeItem_throws_on_missing_entry :
  ∃ h,
    data (st desynchronised) = [h] ∧
    dataSet (st desynchronised) !! h = None ∧
    thrown (removeItem desynchronised) = Some "TypeError" ∧
    filter is_error (console (final (removeItem desynchronised))) = [].
Proof.
  exists (default EmptyString (head (data (st desynchronised)))).
  repeat split; vm_compute; reflexivity.
Qed.

(** ** Pause and resume *)

(** C9, as amended. A second [pause] leaves the store (flags, buffer, pen
    states) and the console as the first one left them, and sends the two
    notifications of [pause] once more; [toggle(true)] after a [pause]
    does nothing at all. The same holds for [resume] and
    [toggle(false)]. *)
Theorem pause_resume_twice (w : world) :
  let announce name s :=
    seen_at s [ipc_sendMessage name None; io_sendBufferVars] in
  (let w1 := final (pause w) in
   let w2 := final (pause w1) in
   st w2 = st w1 ∧ console w2 = console w1 ∧
   out w2 = out w1 ++ announce "buffer.pause" (st w1) ∧
   toggle true w1 = Ret tt w1) ∧
  (let w1 := final (resume w) in
   let w2 := final (resume w1) in
   st w2 = st w1 ∧ console w2 = console w1 ∧
   out w2 = out w1 ++ announce "buffer.resume" (st w1) ∧
   toggle false w1 = Ret tt w1).
Proof.
  split; intros w1 w2; subst w1 w2.
  - rewrite toggle_eq, !pause_eq. simpl. done.
  - rewrite toggle_eq, !resume_eq. simpl. done.
Qed.

(** The second [pause] sends two more notifications. *)
Lemma pause_idempotent_counterexample : ¬ idempotent pause initial_world.
Proof.
  unfold idempotent. rewrite !pause_eq. simpl. intros H.
  apply (f_equal (λ w, length (out w))) in H. simpl in H. discriminate.
Qed.

(** ** Dequeue frame *)

(** C10. When the store is consistent, [data] is not empty and
    [removeItem] returns, it has handled the item [it] of the oldest id
    [h]: [h] is gone from the old end of [data], whose other ids keep
    their order, the entry of [h] is gone from [dataSet], whose other
    entries are the same items, every object that existed keeps its
    content, [cncserver.actualPen] has the content of the pen object of
    [it], and [cncserver.pen] and the flags of the buffer are as
    before. *)
Theorem removeItem_frame w r w' :
  consistent (st w) →
  data (st w) ≠ [] →
  removeItem w = Ret r w' →
  ∃ h it,
    r = Some it ∧
    data (st w) = data (st w') ++ [h] ∧
    dataSet (st w) !! h = Some it ∧
    dataSet (st w') = delete h (dataSet (st w)) ∧
    (∀ h', h' ∈ data (st w') → dataSet (st w') !! h' = dataSet (st w) !! h') ∧
    (∀ l, l ∈ dom (heap (st w)) → heap (st w') !! l = heap (st w) !! l) ∧
    deref (heap (st w')) (cncserver_actualPen (st w'))
    = deref (heap (st w)) (pen it) ∧
    cncserver_pen (st w') = cncserver_pen (st w) ∧
    paused (st w') = paused (st w) ∧
    running (st w') = running (st w) ∧
    newlyPaused (st w') = newlyPaused (st w) ∧
    pauseCallback (st w') = pauseCallback (st w) ∧
    pausePen (st w') = pausePen (st w).
Proof.
  intros [[Hnd Hne] Hdom] Hd Hrem.
  destruct (removeItem_cases w)
    as [[Ht He]|[(h & Ht & Hit & He)|(h & it & Ht & Hit & He)]].
  - exfalso. unfold truthy in Ht.
    destruct (last (data (st w))) as [h|] eqn:Hl.
    + destruct (String.eqb_spec h EmptyString) as [->|]; [|done].
      apply Hne. by apply last_Some_elem_of.
    + by apply last_None in Hl.
  - exfalso. apply truthy_last_Some in Ht as [Hl _].
    destruct (consistent_last (st w) h (conj (conj Hnd Hne) Hdom) Hl)
      as [_ [it Hit']].
    congruence.
  - cbv zeta in He. destruct He as [[_ [cs He]]|[_ He]];
      rewrite He in Hrem; [|discriminate].
    injection Hrem as <- <-.
    apply truthy_last_Some in Ht as [Hl _].
    pose proof (removelast_snoc _ _ Hl) as Hsplit.
    exists h, it. simpl. split; [done|]. split; [done|].
    split; [done|]. split; [done|].
    split.
    { intros h' Hin. apply lookup_delete_ne. intros <-.
      rewrite Hsplit in Hnd. apply NoDup_app in Hnd as (_ & Hnd & _).
      apply (Hnd h Hin). by apply list_elem_of_singleton. }
    split; [intros l Hin; by apply lookup_insert_fresh|].
    rewrite deref_insert_eq. done.
Qed.

Lemma removeItem_frame_witness :
  ∃ h it,
    returned (removeItem queued_world) = Some (Some it) ∧
    data (st queued_world)
    = data (st (final (removeItem queued_world))) ++ [h] ∧
    paused (st (final (removeItem queued_world))) = paused (st queued_world).
Proof.
  destruct (removeItem_frame queued_world (Some (Item hi 1 3%positive))
              (final (removeItem queued_world)))
    as (h & it & Hr & Hd & _ & _ & _ & _ & _ & _ & Hp & _).
  - split; [split|]; [by_evaluation..|].
    vm_cast_no_check (eq_refl (dom (dataSet (st queued_world)))).
  - vm_compute. discriminate.
  - vm_cast_no_check (eq_refl (removeItem queued_world)).
  - exists h, it. split; [|split; [exact Hd|exact Hp]].
    rewrite <- Hr. vm_cast_no_check (eq_refl (Some (Some (Item hi 1 3%positive)))).
Defined.

(** * Further properties of the code *)

(** ** Notifications, property reads and [run] step by step *)

Lemma sent_since_app w o s c :
  sent_since w (World s (out w ++ o) c) = sent <$> o.
Proof. unfold sent_since. simpl. by rewrite drop_app_length. Qed.

Lemma sent_seen_at s cs : sent <$> seen_at s cs = cs.
Proof.
  unfold seen_at. rewrite <- list_fmap_compose. apply list_fmap_id.
Qed.

Lemma is_str_field fs k lit :
  is_str (default undefined (field k fs)) lit = true
  ↔ field k fs = Some (VPrim (PStr lit)).
Proof.
  destruct (field k fs) as [[[| | | |s]| |]|]; simpl; try (split; done).
  destruct (String.eqb_spec s lit) as [->|Hne]; split; try done.
  intros [= ->]. done.
Qed.

Lemma trigger_eq it w :
  is_null (command it) = false →
  trigger it w
  = Ret (bool_decide (trigger_calls (command it) ≠ []))
      (World (st w) (out w ++ seen_at (st w) (trigger_calls (command it)))
         (console w)).
Proof.
  destruct w as [s o c]. unfold trigger, trigger_calls.
  destruct (command it) as [[| |b|z|str]|f|fs]; simpl; intros Hn;
    try discriminate; rewrite ?app_nil_r; try done.
  unfold_m. unfold prop, get_prop. unfold_m. simpl.
  destruct (is_str _ "message"); [done|].
  destruct (is_str _ "callbackname"); [done|]. simpl. by rewrite app_nil_r.
Qed.

Lemma removeItem_eq w h it :
  truthy (last (data (st w))) = Some h →
  dataSet (st w) !! h = Some it →
  is_null (command it) = false →
  removeItem w
  = Ret (Some it)
      (World (set_dataSet (delete h) (confirmed (st w) it))
         (out w ++
            seen_at (confirmed (st w) it)
              (io_sendPenUpdate :: trigger_calls (command it)) ++
            seen_at (set_dataSet (delete h) (confirmed (st w) it))
              [io_sendBufferRemove])
         (console w ++
            [console_log [VPrim (PStr "Removing Item hash:");
                          hash_val (last (data (st w)))]])).
Proof.
  intros Ht Hit Hn. unfold removeItem, pop. unfold_m. simpl.
  rewrite Ht. simpl. rewrite Hit.
  unfold new_object, extend. unfold_m. simpl.
  change (heap (st w)) with (heap (popped (st w))). rewrite extend_new.
  rewrite trigger_eq by done. simpl. by rewrite <- !app_assoc.
Qed.

Lemma prop_eq v k w :
  prop v k w = if nullish v then Throw "TypeError" w
               else Ret (default undefined (get_prop v k)) w.
Proof. unfold prop. by destruct v as [[]| |]. Qed.

(** [run] once the [switch] is through. *)
Lemma run_eq env c d t w :
  run env c d t w =
  match run_switch env c d (clamp_duration t) w with
  | Ret None _ => Ret false w
  | Ret (Some cv) _ =>
      (addItem env (Item cv (clamp_duration t) (fresh (dom (heap (st w)))))
         ≫= λ _, ret true)
        (World (copy_into (st w) (cncserver_pen (st w))) (out w) (console w))
  | Throw e _ => Throw e w
  end.
Proof.
  unfold run. unfold_m.
  destruct (run_switch_cases env c d (clamp_duration t) w)
    as [[_ Hs]|[_ [Hs|[cv Hs]]]]; rewrite Hs; [done..|].
  unfold new_object, extend. unfold_m. simpl. by rewrite extend_new.
Qed.

Lemma returned_tail env it w :
  returned (match addItem env it w with
            | Ret _ w' => Ret true w'
            | Throw e w' => Throw e w'
            end)
  = if is_null (command it) then None else Some true.
Proof.
  destruct (addItem_cases env it w) as [[Hn [r Ha]]|[Hn Ha]];
    by rewrite Ha, Hn.
Qed.

(** [render] reads no state: what it returns depends on the item only. *)
Lemma render_pure env it :
  ∃ o : option rendered,
    (o = None ↔ is_null (command it) = true) ∧
    ∀ w, render env it w
         = match o with Some r => Ret r w | None => Throw "TypeError" w end.
Proof.
  unfold render.
  destruct (command it) as [[| |b|z|str]|f|fs] eqn:E; simpl;
    try (eexists (Some _); split; [done|]; intros w; reflexivity).
  - exists None. done.
  - unfold prop, get_prop. unfold_m. simpl.
    destruct (is_str _ "absmove");
      [eexists (Some _); split; [done|]; intros w; reflexivity|].
    destruct (is_str _ "absheight");
      eexists (Some _); (split; [done|]); intros w; reflexivity.
Qed.

Lemma store_eta_paused s : set_paused (paused s) s = s.
Proof. by destruct s. Qed.

Lemma changes_actualPen env s a s' :
  changes env s a s' → a ≠ ARemoveItem →
  cncserver_actualPen s' = cncserver_actualPen s.
Proof. intros Hc Ha. by destruct Hc. Qed.

Lemma run_switch_side_effect env c d z w cv :
  run_switch env c d z w = Ret (Some cv) w →
  trigger_calls cv = side_effect_of c d.
Proof.
  unfold run_switch, side_effect_of. unfold_m.
  destruct (String.eqb_spec c "move") as [->|?].
  { destruct (nullish d) eqn:Hd; repeat (rewrite prop_eq, Hd; lazy beta iota);
      [done|]. by intros [= <-]. }
  destruct (String.eqb_spec c "height") as [->|?].
  { destruct (nullish d) eqn:Hd; repeat (rewrite prop_eq, Hd; lazy beta iota);
      [done|].
    destruct (pen_state_cases w) as [[_ [a Ha]]|[_ Ha]]; rewrite Ha;
      [by intros [= <-]|done]. }
  destruct (String.eqb_spec c "message") as [->|?]; [by intros [= <-]|].
  destruct (String.eqb_spec c "callbackname") as [->|?]; [by intros [= <-]|].
  destruct (String.eqb_spec c "wait") as [->|?].
  { destruct (no_command env "wait"); [done|]. by intros [= <-]. }
  destruct (String.eqb_spec c "custom") as [->|?]; [by intros [= <-]|].
  destruct (String.eqb_spec c "callback") as [->|?]; [by intros [= <-]|].
  done.
Qed.

Lemma addItem_returns_sent env it w w' :
  addItem env it w = Ret tt w' →
  let h := item_hash env (st w) it in
  ∃ r,
    returned (render env it w) = Some r ∧
    data (st w') = h :: data (st w) ∧
    dataSet (st w') = <[h := it]> (dataSet (st w)) ∧
    out w'
    = out w ++
      seen_at (st w')
        [ipc_sendMessage "buffer.add" (Some (AddMessage h r (duration it)));
         io_sendBufferAdd it h].
Proof.
  intros Ha h. destruct (render_pure env it) as (o & Ho & Hr).
  unfold addItem in Ha. unfold_m. simpl in Ha. rewrite Hr in Ha.
  destruct o as [r|]; [|discriminate].
  injection Ha as <-. exists r. rewrite Hr. simpl.
  rewrite <- app_assoc. done.
Qed.

Lemma addItem_throws_stored env it w :
  is_null (command it) = true →
  addItem env it w
  = Throw "TypeError" (World (added env (st w) it) (out w) (console w)).
Proof.
  intros Hn. by destruct (addItem_cases env it w) as [[Hn' _]|[_ Ha]];
    [congruence|].
Qed.

(** ** Strings and templates *)

Lemma substring_0_append a b :
  String.substring 0 (String.length a) (a +:+ b) = a.
Proof. induction a as [|c a IH]; simpl; [by destruct b|by rewrite IH]. Qed.

Lemma substring_all b : String.substring 0 (String.length b) b = b.
Proof. induction b as [|c b IH]; simpl; [done|by rewrite IH]. Qed.

Lemma substring_skip a b n m :
  String.substring (String.length a + n) m (a +:+ b) = String.substring n m b.
Proof. induction a as [|c a IH]; simpl; [done|apply IH]. Qed.

Lemma length_append a b :
  String.length (a +:+ b) = (String.length a + String.length b)%nat.
Proof. induction a as [|c a IH]; simpl; [done|by rewrite IH]. Qed.

Lemma get_substitution_plain m b a rep :
  has_char "$" rep = false → get_substitution m b a rep = rep.
Proof.
  induction rep as [|c rep IH]; [done|]. simpl.
  intros [Hc Hrep]%orb_false_iff. rewrite Hc. by rewrite IH.
Qed.

Lemma prefix_self pat post : String.prefix pat (pat +:+ post) = true.
Proof. apply prefix_correct, substring_0_append. Qed.

Lemma prefix_other_char c k d rest :
  Ascii.eqb d c = false → String.prefix (String c k) (String d rest) = false.
Proof.
  intros Hd. destruct (String.prefix _ _) eqn:Hp; [|done].
  apply prefix_correct in Hp. simpl in Hp. injection Hp as -> _.
  by rewrite Ascii.eqb_refl in Hd.
Qed.

Lemma index_after pre c k post :
  has_char c pre = false →
  String.index 0 (String c k) (pre +:+ String c k +:+ post)
  = Some (String.length pre).
Proof.
  induction pre as [|d pre IH]; intros Hpre.
  - change (EmptyString +:+ String c k +:+ post)
      with (String c (k +:+ post)).
    cbn [String.index].
    change (String c (k +:+ post)) with (String c k +:+ post).
    by rewrite prefix_self.
  - simpl in Hpre. apply orb_false_iff in Hpre as [Hd Hpre].
    change (String d pre +:+ String c k +:+ post)
      with (String d (pre +:+ String c k +:+ post)).
    cbn [String.index]. rewrite prefix_other_char by done.
    by rewrite IH.
Qed.

Lemma index_absent c k s :
  has_char c s = false → String.index 0 (String c k) s = None.
Proof.
  induction s as [|d s IH]; intros Hs; [done|].
  simpl in Hs. apply orb_false_iff in Hs as [Hd Hs].
  cbn [String.index]. rewrite prefix_other_char by done. by rewrite IH.
Qed.

Lemma js_replace_placeholder pre c k post rep :
  has_char c pre = false →
  has_char "$" rep = false →
  js_replace (pre +:+ String c k +:+ post) (String c k) rep
  = pre +:+ rep +:+ post.
Proof.
  intros Hpre Hrep. unfold js_replace. rewrite index_after by done.
  rewrite substring_0_append, get_substitution_plain by done.
  rewrite substring_skip. rewrite !length_append.
  replace (String.length (String c k)) with (String.length (String c k) + 0)%nat
    at 1 by lia.
  rewrite substring_skip.
  replace (_ - _)%nat with (String.length post) by lia.
  by rewrite substring_all.
Qed.

Lemma js_replace_absent c k s rep :
  has_char c s = false → js_replace s (String c k) rep = s.
Proof. intros Hs. unfold js_replace. by rewrite index_absent. Qed.

Lemma has_char_app c a b :
  has_char c (a +:+ b) = has_char c a || has_char c b.
Proof. induction a as [|d a IH]; simpl; [done|]. by rewrite IH, orb_assoc. Qed.

Lemma append_assoc (a b c : string) : (a +:+ b) +:+ c = a +:+ b +:+ c.
Proof.
  induction a as [|d a IH]; [done|].
  change (String d ((a +:+ b) +:+ c) = String d (a +:+ b +:+ c)).
  by rewrite IH.
Qed.

Lemma replace_value_plain env out pat v :
  match v with VFun _ => false | _ => true end = true →
  replace_value env out pat v = js_replace out pat (to_js_string v).
Proof. by destruct v. Qed.

Lemma replace_value_absent env c k s v :
  has_char c s = false → replace_value env s (String c k) v = s.
Proof.
  intros Hs. destruct v as [p|f|fs]; simpl;
    rewrite ?index_absent by done; try done; by apply js_replace_absent.
Qed.

Lemma own_fields_nodup fs : ∀ seen,
  NoDup fs.*1 → (∀ k, k ∈ fs.*1 → k ∉ seen) → own_fields seen fs = fs.
Proof.
  induction fs as [|kv fs IH]; intros seen Hnd Hseen; [done|].
  rewrite fmap_cons in Hnd. apply NoDup_cons in Hnd as [Hk Hnd].
  cbn [own_fields]. rewrite bool_decide_eq_false_2
    by (apply Hseen; rewrite fmap_cons; by left).
  f_equal. apply IH; [done|].
  intros k Hin [->|Hs]%elem_of_cons; [done|].
  apply (Hseen k); [|done]. rewrite fmap_cons. by right.
Qed.

(** Distinct keys that are no array indices are visited in the order in
    which they are written. *)
Lemma for_in_named fs : named_keys fs → for_in fs = fs.
Proof.
  intros [Hnd Hnone]. unfold for_in.
  rewrite own_fields_nodup; [|done|intros k _; apply not_elem_of_nil].
  assert (Hidx : omap (λ kv, n ← array_index kv.1; Some (n, kv)) fs = []).
  { induction Hnone as [|kv fs Hkv _ IH]; [done|].
    cbn [omap list_omap]. rewrite Hkv. simpl.
    apply IH. rewrite fmap_cons in Hnd. by apply NoDup_cons in Hnd as [_ ?]. }
  rewrite Hidx. simpl. clear Hidx Hnd.
  induction Hnone as [|kv fs Hkv _ IH]; [done|].
  rewrite filter_cons_True by done. by rewrite IH.
Qed.

Lemma foldl_fills env parts : ∀ first,
  has_char "%" first = false →
  forallb plain_part parts = true →
  foldl (λ out kv, replace_value env out ("%" +:+ kv.1) kv.2)
    (first +:+ template_of parts) (fst <$> parts)
  = first +:+ filled parts.
Proof.
  induction parts as [|[[k v] piece] parts IH]; intros first Hf Hp; [done|].
  simpl in Hp. apply andb_true_iff in Hp as [Hpart Hp].
  unfold plain_part in Hpart. simpl in Hpart.
  apply andb_true_iff in Hpart as [Hpart Hdollar].
  apply andb_true_iff in Hpart as [Hpart Hpct].
  apply andb_true_iff in Hpart as [Hfun Hpiece].
  apply negb_true_iff in Hpiece, Hpct, Hdollar.
  cbn [fmap list_fmap foldl template_of filled fst snd].
  rewrite replace_value_plain by done.
  change ("%" +:+ k +:+ piece +:+ template_of parts)
    with (String "%" k +:+ piece +:+ template_of parts).
  change ("%" +:+ k) with (String "%" k).
  rewrite js_replace_placeholder by done.
  rewrite <- (append_assoc (to_js_string v)), <- (append_assoc first).
  rewrite IH; [|by rewrite !has_char_app, Hf, Hpct, Hpiece|done].
  by rewrite !append_assoc.
Qed.

(** ** The drawing breakdown *)

Lemma foldl_getPaths_app cs : ∀ acc,
  (∀ c, c ∈ cs → ∀ items, getPaths c items = items ++ leaves c) →
  foldl (λ moreItems child, getPaths child moreItems) acc cs
  = acc ++ concat (map leaves cs).
Proof.
  induction cs as [|c cs IH]; intros acc Hc; simpl.
  - by rewrite app_nil_r.
  - rewrite IH by (intros c' Hc'; apply Hc; by right).
    rewrite Hc by by left. by rewrite <- app_assoc.
Qed.

Lemma paper_item_ind' (P : paper_item → Prop) :
  (∀ l cs, Forall P cs → P (PaperItem l cs)) → ∀ p, P p.
Proof.
  intros H. fix IH 1. intros [l cs]. apply H.
  induction cs as [|c cs IHcs]; constructor; [apply IH|apply IHcs].
Qed.

Lemma getPaths_appends p items : getPaths p items = items ++ leaves p.
Proof.
  revert items. induction p as [l cs IH] using paper_item_ind'.
  intros items. destruct cs as [|c cs]; [done|].
  cbn [getPaths leaves]. f_equal.
  rewrite foldl_getPaths_app; [done|].
  intros c' Hc'. rewrite Forall_forall in IH. by apply IH.
Qed.


Lemma foldl_jobs hash paths : ∀ jobs,
  foldl (λ jobs path,
           if js_truthy (path_length path)
           then jobs ++ [Job "trace" "job" hash path]
           else jobs) jobs paths
  = jobs ++ (Job "trace" "job" hash
               <$> filter (λ p, js_truthy (path_length p) = true) paths).
Proof.
  induction paths as [|p paths IH]; intros jobs; simpl.
  - by rewrite app_nil_r.
  - rewrite IH. destruct (js_truthy (path_length p)) eqn:Hp.
    + rewrite filter_cons_True by done. by rewrite <- app_assoc.
    + rewrite filter_cons_False by congruence. done.
Qed.

(** ** The drawing breakdown *)

(** X1. [getPaths] appends to [items] the childless descendants of [parent],
    in document order, and leaves what [items] held in front. *)
Theorem getPaths_leaves p items : getPaths p items = items ++ leaves p.
Proof. apply getPaths_appends. Qed.


(** X3. [project] hands over one [trace] job for each childless descendant
    whose [length] is truthy, in document order, each with the given hash
    as parent; items of length 0 and groups give no job. *)
Theorem project_traces_the_leaves item hash :
  project item hash
  = Job "trace" "job" hash
      <$> filter (λ p, js_truthy (path_length p) = true) (leaves item).
Proof. unfold project. by rewrite foldl_jobs, getPaths_appends. Qed.

(** ** Command strings *)

(** X4. For a template made of placeholders in the order of the values,
    where the keys differ and none is an array index, no value is a
    function and no value holds a percent or a dollar sign, [cmdstr]
    returns the template with every placeholder replaced by its value. *)
Theorem cmdstr_fills_in_order env name first parts :
  name ≠ EmptyString →
  bot_commands env !! name = Some (first +:+ template_of parts) →
  first +:+ template_of parts ≠ EmptyString →
  has_char "%" first = false →
  forallb plain_part parts = true →
  named_keys (fst <$> parts) →
  cmdstr env name (fst <$> parts) = first +:+ filled parts.
Proof.
  intros Hname Htpl Hne Hf Hp Hkeys. unfold cmdstr, no_command. rewrite Htpl.
  destruct (String.eqb_spec name EmptyString); [done|].
  destruct (String.eqb_spec (first +:+ template_of parts) EmptyString);
    [done|].
  simpl. rewrite for_in_named by done. by apply foldl_fills.
Qed.

Lemma cmdstr_fills_in_order_witness :
  cmdstr reference_env "movexy" (fst <$> move_parts)
  = "SM," +:+ filled move_parts.
Proof.
  apply (cmdstr_fills_in_order reference_env "movexy" "SM," move_parts).
  - discriminate.
  - vm_compute. reflexivity.
  - discriminate.
  - reflexivity.
  - reflexivity.
  - split; [by_evaluation|]. repeat constructor.
Defined.

(** X5. A command string without a percent sign is returned as it is,
    whatever values are passed. *)
Theorem cmdstr_without_placeholder env name tpl values :
  name ≠ EmptyString → tpl ≠ EmptyString →
  bot_commands env !! name = Some tpl →
  has_char "%" tpl = false →
  cmdstr env name values = tpl.
Proof.
  intros Hname Hne Htpl Hpct. unfold cmdstr, no_command. rewrite Htpl.
  destruct (String.eqb_spec name EmptyString); [done|].
  destruct (String.eqb_spec tpl EmptyString); [done|]. simpl.
  induction (for_in values) as [|[k v] visited IH]; [done|]. simpl.
  change ("%" +:+ k) with (String "%" k).
  by rewrite replace_value_absent.
Qed.

Lemma cmdstr_without_placeholder_witness :
  cmdstr fixed_env "penup" [("z", VPrim (PNum 1))] = "SP,1".
Proof.
  apply (cmdstr_without_placeholder fixed_env "penup" "SP,1").
  - discriminate.
  - discriminate.
  - vm_compute. reflexivity.
  - reflexivity.
Defined.

(** ** Rendering and triggering *)

(** X6. [render] leaves the state, the notifications and the console as
    they are, returns the same in every state, and throws exactly on an
    item whose command is [null]. *)
Theorem render_changes_nothing env it w w' :
  final (render env it w) = w ∧
  returned (render env it w) = returned (render env it w') ∧
  (returned (render env it w) = None ↔ is_null (command it) = true).
Proof.
  destruct (render_pure env it) as (o & Ho & Hr). rewrite !Hr.
  destruct o as [r|]; simpl; (split; [done|]); (split; [done|]).
  - split; [done|]. intros Hn. by apply Ho in Hn.
  - split; [|done]. intros _. by apply Ho.
Qed.

(** X7. A height change renders to the [movez] command first and the [wait]
    command for the time of the change last, with the [togglez] command
    between them when the device has one: three commands, or two. *)
Theorem render_height env it fs w :
  command it = VObj fs →
  field "type" fs = Some (VPrim (PStr "absheight")) →
  let z := default undefined (field "z" fs) in
  let source := default undefined (field "source" fs) in
  let d := default undefined (field "d" (getHeightChangeData env source z)) in
  ∃ cmds,
    render env it w = Ret (RArr cmds) w ∧
    length cmds = (if no_command env "togglez" then 2 else 3)%nat ∧
    head cmds = Some (VPrim (PStr (cmdstr env "movez" [("z", z)]))) ∧
    last cmds = Some (VPrim (PStr (cmdstr env "wait" [("d", d)]))).
Proof.
  intros Hc Ht z source d. unfold render. rewrite Hc. simpl.
  unfold prop, get_prop. unfold_m. simpl. rewrite Ht. simpl.
  fold z source d.
  destruct (no_command env "togglez"); eexists; (split; [reflexivity|]);
    done.
Qed.

Lemma render_height_witness :
  ∃ cmds,
    render reference_env lift initial_world = Ret (RArr cmds) initial_world ∧
    length cmds = 3%nat.
Proof.
  destruct (render_height reference_env lift
              [("type", VPrim (PStr "absheight")); ("z", VPrim (PNum 3));
               ("source", undefined); ("state", VPrim (PStr "up"))]
              initial_world eq_refl eq_refl)
    as (cmds & Hr & Hl & _).
  exists cmds. split; [exact Hr|exact Hl].
Defined.

(** X8. [trigger] changes no state and makes at most one call: it returns
    [true], having made exactly one, for a function and for an object of
    type [message] or [callbackname], and [false], having made none, for
    every other command that is not [null]. *)
Theorem trigger_sends it w :
  is_null (command it) = false →
  ∃ b,
    trigger it w
    = Ret b (World (st w)
               (out w ++ seen_at (st w) (trigger_calls (command it)))
               (console w)) ∧
    length (trigger_calls (command it)) = (if b then 1 else 0)%nat ∧
    (b = true ↔
     (∃ f, command it = VFun f) ∨
     (∃ fs, command it = VObj fs ∧
            (field "type" fs = Some (VPrim (PStr "message")) ∨
             field "type" fs = Some (VPrim (PStr "callbackname"))))).
Proof.
  intros Hn. eexists. split; [by apply trigger_eq|].
  destruct (command it) as [p|f|fs]; simpl.
  - split; [done|]. split; [done|]. intros [[f Hf]|(fs & Hf & _)]; done.
  - split; [done|]. split; [|done]. intros _. left. by exists f.
  - destruct (is_str _ "message") eqn:Hm; simpl.
    + split; [done|]. split; [|done]. intros _. right. exists fs.
      split; [done|]. left. by apply is_str_field.
    + destruct (is_str _ "callbackname") eqn:Hc; simpl.
      * split; [done|]. split; [|done]. intros _. right. exists fs.
        split; [done|]. right. by apply is_str_field.
      * split; [done|]. split; [done|].
        intros [[f Hf]|(fs' & [= <-] & [Hx|Hx])]; [done|..];
          apply is_str_field in Hx; congruence.
Qed.

Lemma trigger_sends_witness :
  returned (trigger first_note initial_world) = Some true.
Proof.
  destruct (trigger_sends first_note initial_world eq_refl)
    as (b & Hr & Hl & _).
  rewrite Hr. destruct b; [reflexivity|discriminate Hl].
Defined.

(** ** Enqueue *)

(** X9. An [addItem] that returns has put the id in front of [data], stored
    the item under it, and sent two notifications, [buffer.add] with the
    rendered commands and the duration first and the client update
    second, both after the store was updated. *)
Theorem addItem_sends env it w w' :
  addItem env it w = Ret tt w' →
  let h := item_hash env (st w) it in
  ∃ r,
    returned (render env it w) = Some r ∧
    data (st w') = h :: data (st w) ∧
    dataSet (st w') = <[h := it]> (dataSet (st w)) ∧
    out w'
    = out w ++
      seen_at (st w')
        [ipc_sendMessage "buffer.add" (Some (AddMessage h r (duration it)));
         io_sendBufferAdd it h].
Proof. apply addItem_returns_sent. Qed.

Lemma addItem_sends_witness :
  data (st (final (addItem reference_env first_note initial_world)))
  = [item_hash reference_env initial_store first_note].
Proof.
  destruct (addItem_sends reference_env first_note initial_world
              (final (addItem reference_env first_note initial_world)))
    as (r & _ & Hd & _).
  - vm_cast_no_check
      (eq_refl (addItem reference_env first_note initial_world)).
  - exact Hd.
Defined.

(** X10. [addItem] of an item whose command is [null] throws while it
    renders: the item is stored by then, and no notification is sent. *)
Theorem addItem_null_command env it w :
  is_null (command it) = true →
  addItem env it w
  = Throw "TypeError" (World (added env (st w) it) (out w) (console w)).
Proof. apply addItem_throws_stored. Qed.

Lemma addItem_null_command_witness :
  thrown (addItem reference_env null_item initial_world) = Some "TypeError".
Proof.
  rewrite (addItem_null_command reference_env null_item initial_world
             eq_refl).
  reflexivity.
Defined.

(** ** The run call *)

(** X11. What [run] returns depends on the command name, on whether the
    payload is [undefined] or [null], on the device having a [wait]
    command and, for a [height], on [cncserver.pen] being an object, and
    on nothing else: not on the duration and not on the rest of the
    state. *)
Theorem run_returns_by_kind env c d t w :
  returned (run env c d t w)
  = run_outcome env c d (bool_decide (pen_is_object (st w))).
Proof.
  rewrite run_eq. unfold run_outcome, run_switch. unfold_m.
  destruct (String.eqb c "move").
  { destruct (nullish d) eqn:Hd; repeat (rewrite prop_eq, Hd; lazy beta iota);
      [done|]. by rewrite returned_tail. }
  destruct (String.eqb c "height").
  { destruct (nullish d) eqn:Hd; repeat (rewrite prop_eq, Hd; lazy beta iota);
      [done|]. simpl.
    destruct (pen_state_cases w) as [[Ho [a Ha]]|[Ho Ha]]; rewrite Ha.
    - rewrite bool_decide_eq_true_2 by done. by rewrite returned_tail.
    - by rewrite bool_decide_eq_false_2. }
  destruct (String.eqb c "message"); [by rewrite returned_tail|].
  destruct (String.eqb c "callbackname"); [by rewrite returned_tail|].
  destruct (String.eqb c "wait").
  { destruct (no_command env "wait"); [done|]. by rewrite returned_tail. }
  destruct (String.eqb c "custom"); [by rewrite returned_tail|].
  destruct (String.eqb c "callback"); [by rewrite returned_tail|].
  done.
Qed.

(** X12. [run] of a [move] or a [height] without a payload throws and leaves
    everything as it was. *)
Theorem run_throws_on_missing_data env c d t w :
  c = "move" ∨ c = "height" →
  nullish d = true →
  run env c d t w = Throw "TypeError" w.
Proof.
  intros Hc Hd. rewrite run_eq. unfold run_switch. unfold_m.
  destruct Hc as [-> | ->]; simpl; by rewrite prop_eq, Hd.
Qed.

Lemma run_throws_on_missing_data_witness :
  run reference_env "move" undefined (Dnum 5) busy_world
  = Throw "TypeError" busy_world.
Proof.
  apply run_throws_on_missing_data; [by left|reflexivity].
Defined.

(** X13. [run] of a [custom] or [callback] command with payload [null]
    throws after the item was stored: the buffer keeps an item whose
    command is [null], and no notification is sent. *)
Theorem run_null_payload env c t w :
  c = "custom" ∨ c = "callback" →
  run env c (VPrim PNull) t w
  = Throw "TypeError"
      (World
         (added env (copy_into (st w) (cncserver_pen (st w)))
            (Item (VPrim PNull) (clamp_duration t)
               (fresh (dom (heap (st w))))))
         (out w) (console w)).
Proof.
  intros Hc. rewrite run_eq.
  assert (Hs : run_switch env c (VPrim PNull) (clamp_duration t) w
               = Ret (Some (VPrim PNull)) w) by by destruct Hc as [-> | ->].
  rewrite Hs. unfold mbind, M_bind, bind.
  by rewrite addItem_throws_stored.
Qed.

Lemma run_null_payload_witness :
  thrown (run reference_env "custom" (VPrim PNull) Dundefined initial_world)
  = Some "TypeError".
Proof.
  rewrite (run_null_payload reference_env "custom" Dundefined initial_world
             (or_introl eq_refl)).
  reflexivity.
Defined.

(** X14. [run] never moves the two pen references, the pause flag, the
    running flag or the console, changes no pen object that existed
    before, and adds at most one id, in front of [data]. *)
Theorem run_frame env c d t w :
  let w' := final (run env c d t w) in
  cncserver_pen (st w') = cncserver_pen (st w) ∧
  cncserver_actualPen (st w') = cncserver_actualPen (st w) ∧
  paused (st w') = paused (st w) ∧
  running (st w') = running (st w) ∧
  console w' = console w ∧
  (∀ l, l ∈ dom (heap (st w)) → heap (st w') !! l = heap (st w) !! l) ∧
  (data (st w') = data (st w) ∨ ∃ h, data (st w') = h :: data (st w)).
Proof.
  intros w'. subst w'. rewrite run_eq.
  destruct (run_switch_cases env c d (clamp_duration t) w)
    as [[_ Hs]|[_ [Hs|[cv Hs]]]]; rewrite Hs; simpl;
    [repeat split; auto..|].
  unfold mbind, M_bind, bind.
  match goal with
  | |- context [addItem env ?it ?w1] =>
      destruct (addItem_cases env it w1) as [[_ [r Ha]]|[_ Ha]]
  end; rewrite Ha; simpl; repeat split; eauto;
    intros l Hl; by apply lookup_insert_fresh.
Qed.

Lemma run_frame_witness :
  heap (st (final (run reference_env "message" hi (Dnum 2) initial_world)))
    !! 1%positive
  = heap (st initial_world) !! 1%positive.
Proof.
  destruct (run_frame reference_env "message" hi (Dnum 2) initial_world)
    as (_ & _ & _ & _ & _ & Hheap & _).
  apply Hheap. by_evaluation.
Defined.

(** X15. A [run] that returns [true] has added exactly one item, with the
    clamped duration, and sent exactly the two notifications of the
    enqueue. *)
Theorem run_sends env c d t w w1 :
  run env c d t w = Ret true w1 →
  ∃ h it r,
    data (st w1) = h :: data (st w) ∧
    dataSet (st w1) = <[h := it]> (dataSet (st w)) ∧
    duration it = clamp_duration t ∧
    out w1
    = out w ++
      seen_at (st w1)
        [ipc_sendMessage "buffer.add"
           (Some (AddMessage h r (clamp_duration t)));
         io_sendBufferAdd it h].
Proof.
  intros Hrun. rewrite run_eq in Hrun.
  destruct (run_switch env c d (clamp_duration t) w) as [[cv|] ?|];
    [|discriminate..].
  unfold mbind, M_bind, bind in Hrun.
  match type of Hrun with
  | context [addItem env ?it ?w0] =>
      destruct (addItem env it w0) as [[] w2|] eqn:Ha; [|discriminate];
      destruct (addItem_returns_sent env it w0 w2 Ha) as (r & _ & Hd & Hs & Ho)
  end.
  injection Hrun as <-. eexists _, _, r. simpl in *. done.
Qed.

Lemma run_sends_witness :
  ∃ h,
    data (st (final (run reference_env "message" hi (Dnum 2) initial_world)))
    = [h].
Proof.
  destruct (run_sends reference_env "message" hi (Dnum 2) initial_world
              (final (run reference_env "message" hi (Dnum 2) initial_world)))
    as (h & it & r & Hd & _).
  - vm_cast_no_check
      (eq_refl (run reference_env "message" hi (Dnum 2) initial_world)).
  - exists h. exact Hd.
Defined.

(** ** Pause, resume and toggle *)

(** X16. [toggle] leaves the pause flag equal to its argument and changes
    nothing else; it notifies, with the message of the new state and the
    buffer variables, only when the flag changes; a second [toggle] with
    the same argument does nothing at all. *)
Theorem toggle_sets_the_flag b w :
  ∃ w',
    toggle b w = Ret tt w' ∧
    st w' = set_paused b (st w) ∧
    console w' = console w ∧
    sent_since w w'
    = (if bool_decide (paused (st w) = b) then []
       else [ipc_sendMessage (if b then "buffer.pause" else "buffer.resume")
               None;
             io_sendBufferVars]) ∧
    toggle b w' = Ret tt w'.
Proof.
  rewrite toggle_eq.
  destruct b, (paused (st w)) eqn:Hp; simpl;
    rewrite ?pause_eq, ?resume_eq; eexists; (split; [reflexivity|]);
    rewrite ?toggle_eq; simpl; rewrite ?Hp; simpl;
    rewrite ?sent_since_app, ?sent_seen_at;
    repeat split; try done;
    try (rewrite <- Hp; symmetry; apply store_eta_paused);
    unfold sent_since; by rewrite drop_all.
Qed.

(** X17. From a buffer that is not paused, [pause] followed by [resume]
    gives back the same store, after four notifications. *)
Theorem pause_then_resume w :
  paused (st w) = false →
  let w' := final (resume (final (pause w))) in
  st w' = st w ∧ console w' = console w ∧
  sent_since w w'
  = [ipc_sendMessage "buffer.pause" None; io_sendBufferVars;
     ipc_sendMessage "buffer.resume" None; io_sendBufferVars].
Proof.
  intros Hp w'. subst w'. rewrite pause_eq, resume_eq. simpl.
  split; [|split; [done|]].
  - rewrite <- Hp. destruct (st w); reflexivity.
  - rewrite <- app_assoc, sent_since_app. done.
Qed.

Lemma pause_then_resume_witness :
  st (final (resume (final (pause initial_world)))) = st initial_world.
Proof.
  destruct (pause_then_resume initial_world eq_refl) as [Hs _]. exact Hs.
Defined.

(** X18. [pause], [resume] and [toggle] change nothing of the store but the
    pause flag: the items, their order and the pens stay. *)
Theorem flag_calls_change_only_the_flag env a w :
  a = APause ∨ a = AResume ∨ (∃ b, a = AToggle b) →
  ∃ b, st (perform env a w) = set_paused b (st w).
Proof.
  intros Ha. pose proof (perform_changes env a w) as Hc.
  destruct Ha as [-> | [-> | [b ->]]]; inversion Hc; eauto.
  exists (paused (st w)). by rewrite store_eta_paused.
Qed.

Lemma flag_calls_change_only_the_flag_witness :
  ∃ b, st (perform reference_env APause queued_world)
       = set_paused b (st queued_world).
Proof.
  apply flag_calls_change_only_the_flag. by left.
Defined.

(** ** Dequeue *)

(** X19. Every [removeItem], also one that throws, takes exactly the last id
    off [data]; as many calls as [data] has ids leave it empty. *)
Theorem removeItem_pops_one env w :
  data (st (final (removeItem w))) = removelast (data (st w)) ∧
  data (st (perform_all env (replicate (length (data (st w))) ARemoveItem) w))
  = [].
Proof.
  assert (Hone : ∀ w, data (st (final (removeItem w)))
                      = removelast (data (st w))).
  { intros w0.
    by destruct (changes_dequeue env _ _
                   (perform_changes env ARemoveItem w0)). }
  split; [apply Hone|].
  remember (length (data (st w))) as n eqn:Hn.
  revert w Hn. induction n as [|n IH]; intros w Hn.
  - simpl. by destruct (data (st w)).
  - cbn [replicate]. rewrite perform_all_cons. apply IH.
    cbn [perform]. rewrite Hone.
    destruct (data (st w)) as [|x l] using rev_ind; [done|].
    rewrite removelast_last. rewrite length_app in Hn. simpl in Hn. lia.
Qed.

(** X20. [removeItem] of an id that has no entry in [dataSet]. Where the
    id is not the name of a property that every object inherits, the call
    throws after the id was taken off [data] and logged: no pen is
    updated and nothing is sent. Where it is such a name, the call
    returns: [cncserver.actualPen] is a new empty object, and the pen
    update and the removal are sent. *)
Theorem removeItem_without_entry w h :
  truthy (last (data (st w))) = Some h →
  dataSet (st w) !! h = None →
  let logged :=
    console w ++
    [console_log [VPrim (PStr "Removing Item hash:"); VPrim (PStr h)]] in
  (h ∉ inherited →
   removeItem w = Throw "TypeError" (World (popped (st w)) (out w) logged)) ∧
  (h ∈ inherited →
   removeItem w
   = Ret None
       (World (unconfirmed (st w))
          (out w ++ seen_at (unconfirmed (st w))
                      [io_sendPenUpdate; io_sendBufferRemove])
          logged) ∧
   deref (heap (unconfirmed (st w))) (cncserver_actualPen (unconfirmed (st w)))
   = ∅).
Proof.
  intros Ht Hit logged. subst logged.
  destruct (removeItem_cases w)
    as [[Ht' _]|[(h' & Ht' & _ & He)|(h' & it & Ht' & Hit' & _)]];
    rewrite Ht in Ht'; try discriminate.
  2:{ injection Ht' as <-. congruence. }
  injection Ht' as <-. apply truthy_last_Some in Ht as [Hl _].
  rewrite Hl in He. simpl in He.
  destruct He as [[Hin He]|[Hin He]]; (split; [|split]); try done.
  simpl. apply deref_insert_eq.
Qed.

Lemma removeItem_without_entry_witness :
  thrown (removeItem orphan_world) = Some "TypeError" ∧
  returned (removeItem inheriting_world) = Some None.
Proof.
  destruct (removeItem_without_entry orphan_world "a" eq_refl eq_refl)
    as [Hthrows _].
  destruct (removeItem_without_entry inheriting_world "constructor"
              eq_refl eq_refl) as [_ Hreturns].
  split.
  - rewrite Hthrows; [reflexivity|]. by_evaluation.
  - destruct Hreturns as [Hreturns _]; [by_evaluation|].
    rewrite Hreturns. reflexivity.
Defined.

(** X21. [removeItem] of an item whose command is [null] throws in
    [trigger]: the confirmed pen is updated and its notification sent by
    then, and the entry stays in [dataSet] though its id has left
    [data]. *)
Theorem removeItem_null_command w h it :
  truthy (last (data (st w))) = Some h →
  dataSet (st w) !! h = Some it →
  is_null (command it) = true →
  ∃ w',
    removeItem w = Throw "TypeError" w' ∧
    data (st w') = removelast (data (st w)) ∧
    dataSet (st w') = dataSet (st w) ∧
    deref (heap (st w')) (cncserver_actualPen (st w'))
    = deref (heap (st w)) (pen it) ∧
    sent_since w w' = [io_sendPenUpdate].
Proof.
  intros Ht Hit Hn.
  destruct (removeItem_cases w)
    as [[Ht' _]|[(h' & Ht' & Hit' & _)|(h' & it' & Ht' & Hit' & He)]];
    rewrite Ht in Ht'; try discriminate.
  { injection Ht' as <-. congruence. }
  injection Ht' as <-. rewrite Hit in Hit'. injection Hit' as <-.
  cbv zeta in He. destruct He as [[Hn' _]|[_ He]]; [congruence|].
  eexists. split; [exact He|]. simpl.
  rewrite deref_insert_eq, sent_since_app. done.
Qed.

Lemma removeItem_null_command_witness :
  ∃ w',
    removeItem poisoned_world = Throw "TypeError" w' ∧
    sent_since poisoned_world w' = [io_sendPenUpdate].
Proof.
  destruct (removeItem_null_command poisoned_world "n" null_item
              eq_refl eq_refl eq_refl)
    as (w' & Hr & _ & _ & _ & Hs).
  exists w'. split; [exact Hr|exact Hs].
Defined.

(** X22. A [removeItem] that returns an item has sent the pen update first,
    then what the item triggers, then the removal; the pen update and
    the trigger still see the entry in [dataSet], with its id already
    off [data], and only the removal sees the final store. *)
Theorem removeItem_notifies_in_order w it w' :
  removeItem w = Ret (Some it) w' →
  ∃ h before after,
    last (data (st w)) = Some h ∧
    out w' = out w ++ before ++ [after] ∧
    sent <$> before = io_sendPenUpdate :: trigger_calls (command it) ∧
    sent after = io_sendBufferRemove ∧
    Forall (λ n, dataSet (seen n) !! h = Some it ∧
                 data (seen n) = removelast (data (st w))) before ∧
    dataSet (seen after) !! h = None ∧
    seen after = st w'.
Proof.
  intros Hrem.
  destruct (removeItem_cases w)
    as [[_ He]|[(h & _ & _ & [[_ He]|[_ He]])|(h & it' & Ht & Hit & He)]];
    [rewrite He in Hrem; discriminate..|].
  cbv zeta in He. destruct He as [[Hn _]|[_ He]];
    [|rewrite He in Hrem; discriminate].
  rewrite (removeItem_eq w h it' Ht Hit Hn) in Hrem.
  injection Hrem as -> <-.
  apply truthy_last_Some in Ht as [Hl _].
  exists h,
    (seen_at (confirmed (st w) it)
       (io_sendPenUpdate :: trigger_calls (command it))),
    (Notification io_sendBufferRemove
       (set_dataSet (delete h) (confirmed (st w) it))).
  split; [done|]. split; [reflexivity|].
  split; [apply sent_seen_at|]. split; [done|]. split.
  - unfold seen_at. rewrite Forall_fmap. apply Forall_forall.
    intros c _. simpl. done.
  - split; [apply lookup_delete_eq|done].
Qed.

Lemma removeItem_notifies_in_order_witness :
  ∃ h after,
    last (data (st queued_world)) = Some h ∧
    sent after = io_sendBufferRemove ∧
    dataSet (seen after) !! h = None.
Proof.
  destruct (removeItem_notifies_in_order queued_world
              (Item hi 1 3%positive) (final (removeItem queued_world)))
    as (h & before & after & Hl & _ & _ & Hs & _ & Hn & _).
  - vm_cast_no_check (eq_refl (removeItem queued_world)).
  - exists h, after. split; [exact Hl|]. split; [exact Hs|exact Hn].
Defined.

(** X23. While the two pens are separate objects, no call but [removeItem]
    changes the confirmed pen: enqueues, clears, pauses and pen moves
    leave both the reference and the object as they were. *)
Theorem confirmed_changes_only_on_dequeue env acts : ∀ w,
  Forall (λ a, a ≠ ARemoveItem) acts →
  cncserver_actualPen (st w) ∈ dom (heap (st w)) →
  cncserver_actualPen (st w) ≠ cncserver_pen (st w) →
  let w' := perform_all env acts w in
  cncserver_actualPen (st w') = cncserver_actualPen (st w) ∧
  deref (heap (st w')) (cncserver_actualPen (st w'))
  = deref (heap (st w)) (cncserver_actualPen (st w)).
Proof.
  induction acts as [|a acts IH]; intros w Ha Hin Hne; [done|].
  apply Forall_cons in Ha as [Ha Hacts]. cbv zeta.
  rewrite perform_all_cons.
  apply elem_of_dom in Hin as [p Hp].
  pose proof (perform_changes env a w) as Hc.
  destruct (changes_keeps env _ a _ _ p Hc Hp (not_eq_sym Hne)) as [Hp' Hne'].
  pose proof (changes_actualPen env _ a _ Hc Ha) as Hloc.
  destruct (IH (perform env a w) Hacts) as [Hl Hd].
  - rewrite Hloc. apply elem_of_dom. by exists p.
  - rewrite Hloc. by apply not_eq_sym.
  - split; [by rewrite Hl|]. rewrite Hd, Hloc.
    unfold deref. by rewrite Hp', Hp.
Qed.

Lemma confirmed_changes_only_on_dequeue_witness :
  cncserver_actualPen
    (st (perform_all reference_env calm_calls initial_world))
  = 2%positive.
Proof.
  destruct (confirmed_changes_only_on_dequeue reference_env calm_calls
              initial_world)
    as [Hl _].
  - repeat constructor; discriminate.
  - by_evaluation.
  - discriminate.
  - exact Hl.
Defined.

(** X24. After [clear], a [removeItem] finds nothing: it returns without an
    item, leaves the cleared store and sends nothing; it logs and
    reports the mismatch on the console. *)
Theorem removeItem_after_clear w :
  ∃ line1 line2,
    removeItem (final (clear w))
    = Ret None
        (World (cleared (st w)) (out (final (clear w)))
           (console w ++ [console_log line1; console_error line2])).
Proof.
  destruct (removeItem_empty (final (clear w))) as (l1 & l2 & He).
  { by rewrite clear_eq. }
  exists l1, l2. rewrite He. by rewrite clear_eq.
Qed.

(** X25. Round trip on an empty buffer: the item that a [run] returning
    [true] has queued is the one the next [removeItem] returns, with the
    clamped duration; the buffer is empty again, the confirmed pen holds
    what the planned pen held at the [run], and the dequeue sends the
    pen update, what the kind and payload of the [run] call for, and the
    removal. *)
Theorem enqueue_then_dequeue env c d t w w1 :
  data (st w) = [] →
  proper_hash env →
  run env c d t w = Ret true w1 →
  ∃ it w2,
    removeItem w1 = Ret (Some it) w2 ∧
    data (st w2) = [] ∧
    duration it = clamp_duration t ∧
    deref (heap (st w2)) (cncserver_actualPen (st w2))
    = deref (heap (st w)) (cncserver_pen (st w)) ∧
    sent_since w1 w2
    = io_sendPenUpdate :: side_effect_of c d ++ [io_sendBufferRemove].
Proof.
  intros Hd Hhash Hrun.
  pose proof Hrun as Hrun'. rewrite run_eq in Hrun'.
  destruct (run_switch_cases env c d (clamp_duration t) w)
    as [[_ Hs]|[_ [Hs|[cv Hs]]]]; rewrite Hs in Hrun'; try discriminate.
  pose proof (run_switch_side_effect _ _ _ _ _ _ Hs) as Hside.
  unfold mbind, M_bind, bind in Hrun'.
  match type of Hrun' with
  | context [addItem env ?it ?w0] =>
      destruct (addItem env it w0) as [[] w2|] eqn:Ha; [|discriminate];
      apply addItem_returns in Ha as [Hn Hst];
      set (x := it) in *
  end.
  injection Hrun' as <-. simpl in Hst.
  set (h := item_hash env (copy_into (st w) (cncserver_pen (st w))) x) in *.
  assert (Ht : truthy (last (data (st w2))) = Some h).
  { rewrite Hst. simpl. rewrite Hd. apply truthy_Some. by apply item_hash_proper. }
  assert (Hx : dataSet (st w2) !! h = Some x).
  { rewrite Hst. simpl. apply lookup_insert_eq. }
  exists x. eexists. split; [by apply removeItem_eq|].
  rewrite sent_since_app. simpl.
  rewrite Hst. simpl. rewrite Hd. simpl.
  split; [done|]. split; [done|].
  rewrite !deref_insert_eq. split; [done|].
  rewrite fmap_app, sent_seen_at. simpl in Hside |- *. by rewrite Hside.
Qed.

Lemma enqueue_then_dequeue_witness :
  ∃ it w2,
    removeItem
      (final (run reference_env "callback" (VFun "done") (Dnum 3)
                initial_world))
    = Ret (Some it) w2 ∧
    data (st w2) = [] ∧
    duration it = 3.
Proof.
  destruct (enqueue_then_dequeue reference_env "callback" (VFun "done")
              (Dnum 3) initial_world
              (final (run reference_env "callback" (VFun "done") (Dnum 3)
                        initial_world)))
    as (it & w2 & Hr & Hd & Ht & _).
  - reflexivity.
  - apply reference_hash_proper.
  - vm_cast_no_check
      (eq_refl (run reference_env "callback" (VFun "done") (Dnum 3)
                  initial_world)).
  - exists it, w2. split; [exact Hr|]. split; [exact Hd|exact Ht].
Defined.

(** ** The duration clamp *)

(** X26. On the durations whose stored value is told by arithmetic
    (missing, zero, or a number from 10^-6 up to 10^21 in magnitude that
    JavaScript holds), the duration clamp ignores the sign of a number,
    changes no duration that it has produced, and leaves a whole number of
    at least 1 as it is. *)
Theorem clamp_duration_even_idempotent negative whole fraction d :
  in_range (Dnum (Finite negative whole fraction)) →
  in_range d →
  clamp_duration (Dnum (Finite (negb negative) whole fraction))
  = clamp_duration (Dnum (Finite negative whole fraction)) ∧
  clamp_duration (Dnum (clamp_duration d)) = clamp_duration d ∧
  ((1 ≤ whole)%N → clamp_duration (Dnum (of_N whole)) = of_N whole).
Proof.
  intros Hx Hd.
  assert (Hwhole : ∀ n, (1 ≤ n)%N → (n < 10 ^ 21)%N → to_double n = Some n →
                        clamp_duration (Dnum (of_N n)) = of_N n).
  { intros n Hn Hlt Hdouble. rewrite clamp_in_range.
    - simpl. f_equal. lia.
    - right. split; [done|]. split; [done|]. unfold tiny.
      destruct (N.eqb_spec n 0); [lia|done]. }
  split; [|split].
  - by rewrite !clamp_in_range.
  - rewrite (clamp_in_range d Hd). apply Hwhole.
    + destruct d as [| |b|[neg w f| |]|s]; simpl; lia.
    + destruct d as [| |b|[neg w f| |]|s]; try done.
      simpl in Hd |- *. destruct Hd as [Hz|(Hlt & _ & _)].
      * by rewrite (is_zero_whole _ _ Hz).
      * destruct (N.max_spec 1 w) as [[_ ->]|[_ ->]]; done.
    + destruct d as [| |b|[neg w f| |]|s]; try done.
      simpl in Hd |- *. destruct Hd as [Hz|(_ & Hdouble & _)].
      * by rewrite (is_zero_whole _ _ Hz).
      * destruct (N.max_spec 1 w) as [[_ ->]|[_ ->]]; done.
  - intros Hw. simpl in Hx. destruct Hx as [Hz|(Hlt & Hdouble & _)].
    + apply is_zero_whole in Hz. lia.
    + by apply Hwhole.
Qed.

Lemma clamp_duration_even_idempotent_witness :
  clamp_duration (Dnum (-7)) = clamp_duration (Dnum 7) ∧
  clamp_duration (Dnum 7) = 7.
Proof.
  destruct (clamp_duration_even_idempotent false 7 [] Dundefined)
    as (Hsign & _ & Hwhole).
  - right. repeat split; reflexivity.
  - exact I.
  - split; [exact Hsign|]. apply Hwhole. lia.
Defined.
